(** * Tubely video upload: the aspect classifier and the upload handler

    A shallow embedding of [handler_upload_video.go]:
    - [getVideoAspectRatio], the classifier run on the output of the media
      probe, with Go's [float64] arithmetic modelled bit for bit on the
      IEEE 754 binary64 specification of the Standard Library
      ([SpecFloat], precision 53, [emax] 1024);
    - [handlerUploadVideo], the request handler, as a computation in a small
      state monad with early return, over an explicit world (record store,
      object store, temporary directory), a response writer and a trace of
      the calls the handler makes to its collaborators.

    Debug printing ([fmt.Println], [fmt.Printf]) writes to the standard
    output only and is left out. *)

From Stdlib Require Import ZArith String Ascii List Lia Bool.
From Stdlib Require Import Floats.SpecFloat.
From stdpp Require Import gmap strings list.
Import ListNotations.

Open Scope string_scope.
Open Scope Z_scope.

(** ** Results of fallible calls *)

(** Go's [(value, err)] pair: [Err e] stands for [err != nil]. *)
Inductive result (A : Type) : Type :=
| Ok (a : A)
| Err (e : string).
Arguments Ok {A} a.
Arguments Err {A} e.

(** ** [float64] *)

Module Float64.

Definition prec : Z := 53.
Definition emax : Z := 1024.

Definition float64 : Type := spec_float.

(** The conversion [float64(n)] of an [int]: round to nearest, ties to
    even. *)
Definition of_int (n : Z) : float64 := binary_normalize prec emax n 0 false.

(** [x / y] *)
Definition div (x y : float64) : float64 := SFdiv prec emax x y.

(** [x < y]; [x > y] is [lt y x]. *)
Definition lt (x y : float64) : bool := SFltb x y.

(** The float64 value of a decimal constant [n / d] of the source, [d] a
    power of ten: the nearest binary64 number, which is what the correctly
    rounded quotient of two exactly representable integers gives. *)
Definition decimal (n : Z) (d : Z) : float64 := div (of_int n) (of_int d).

(** The eight constants of the tolerance bands, as the compiler rounds
    them: mantissa and binary exponent. *)
Definition c1_6  : float64 := S754_finite false 7205759403792794 (-52). (* 0x1.999999999999ap+0 *)
Definition c1_85 : float64 := S754_finite false 8331659310635418 (-52). (* 0x1.d99999999999ap+0 *)
Definition c1_28 : float64 := S754_finite false 5764607523034235 (-52). (* 0x1.47ae147ae147bp+0 *)
Definition c1_36 : float64 := S754_finite false 6124895493223875 (-52). (* 0x1.5c28f5c28f5c3p+0 *)
Definition c0_53 : float64 := S754_finite false 4773815605012726 (-53). (* 0x1.0f5c28f5c28f6p-1 *)
Definition c0_62 : float64 := S754_finite false 5584463537939415 (-53). (* 0x1.3d70a3d70a3d7p-1 *)
Definition c0_73 : float64 := S754_finite false 6575255455960924 (-53). (* 0x1.75c28f5c28f5cp-1 *)
Definition c0_82 : float64 := S754_finite false 7385903388887613 (-53). (* 0x1.a3d70a3d70a3dp-1 *)

(** The value of a positive finite float, times [2^116]: an integer for
    every exponent from -116 up, which covers the quotients of two [int]s
    and the constants of the bands. *)
Definition scaled (x : float64) : Z :=
  match x with
  | S754_finite false m e => Zpos m * 2 ^ (e + 116)
  | _ => 0
  end.

End Float64.

(** ** The classifier: [getVideoAspectRatio] *)

(** One element of [ff.Streams], as [json.Unmarshal] fills it: a field that
    is absent from the probe output keeps its zero value ([0], the empty
    string). [Rotate] is [Tags.Rotate]. *)
Record Stream : Type := {
  CodecType : string;
  Width : Z;
  Height : Z;
  Rotate : string
}.


(** [w, h := s.Width, s.Height], swapped when the rotation tag is "90" or
    "270". *)
Definition oriented (s : Stream) : Z * Z :=
  if String.eqb (Rotate s) "90" || String.eqb (Rotate s) "270"
  then (Height s, Width s)
  else (Width s, Height s).

(** [ar := float64(w) / float64(h)] *)
Definition ratio (w h : Z) : Float64.float64 :=
  Float64.div (Float64.of_int w) (Float64.of_int h).

(** The four [if] statements on [ar], in the order of the source; [None]
    when control leaves the last of them without a [return]. *)
Definition band (ar : Float64.float64) : option string :=
  if Float64.lt Float64.c1_6 ar && Float64.lt ar Float64.c1_85 then Some "16:9"
  else if Float64.lt Float64.c1_28 ar && Float64.lt ar Float64.c1_36 then Some "4:3"
  else if Float64.lt Float64.c0_53 ar && Float64.lt ar Float64.c0_62 then Some "9:16"
  else if Float64.lt Float64.c0_73 ar && Float64.lt ar Float64.c0_82 then Some "3:4"
  else None.

(** The two [continue] guards at the head of the loop body. *)
Definition skipped (s : Stream) : bool :=
  negb (String.eqb (CodecType s) "video") || (Width s <=? 0) || (Height s <=? 0).

(** The body of the loop after the guards, for one stream. *)
Definition stream_label (s : Stream) : option string :=
  let '(w, h) := oriented s in band (ratio w h).

(** [for _, s := range ff.Streams { ... }; return "other", nil] *)
Fixpoint classifyStreams (streams : list Stream) : string :=
  match streams with
  | [] => "other"
  | s :: rest =>
      if skipped s then classifyStreams rest
      else match stream_label s with
           | Some label => label
           | None => classifyStreams rest
           end
  end.


(** ** Go's [strings] functions used by [mime.ParseMediaType]

    Strings are byte strings. The functions are those of the Go library on
    ASCII text; bytes from 128 up are neither spaces nor letters here (Go
    decodes them as multi-byte runes). *)

Module Strings.

Definition isSpace (c : ascii) : bool :=
  let n := N_of_ascii c in
  ((9 <=? n) && (n <=? 13) || (n =? 32))%N.

Definition toLowerChar (c : ascii) : ascii :=
  let n := N_of_ascii c in
  if ((65 <=? n) && (n <=? 90))%N then ascii_of_N (n + 32) else c.

Fixpoint ToLower (s : string) : string :=
  match s with
  | EmptyString => EmptyString
  | String c r => String (toLowerChar c) (ToLower r)
  end.

(** [strings.TrimLeftFunc(s, unicode.IsSpace)] *)
Fixpoint TrimLeft (s : string) : string :=
  match s with
  | EmptyString => EmptyString
  | String c r => if isSpace c then TrimLeft r else s
  end.

Fixpoint TrimRight (s : string) : string :=
  match s with
  | EmptyString => EmptyString
  | String c r =>
      match TrimRight r with
      | EmptyString => if isSpace c then EmptyString else String c EmptyString
      | r' => String c r'
      end
  end.

Definition TrimSpace (s : string) : string := TrimRight (TrimLeft s).

(** The longest prefix of [s] whose bytes all satisfy [p], and what
    follows it. *)
Fixpoint span (p : ascii -> bool) (s : string) : string * string :=
  match s with
  | EmptyString => (EmptyString, EmptyString)
  | String c r =>
      if p c then let '(a, b) := span p r in (String c a, b)
      else (EmptyString, s)
  end.

Definition HasPrefix (s : string) (c : ascii) : bool :=
  match s with
  | String c' _ => Ascii.eqb c' c
  | EmptyString => false
  end.

(** [s[1:]] *)
Definition tail (s : string) : string :=
  match s with
  | String _ r => r
  | EmptyString => EmptyString
  end.

Fixpoint contains (s : string) (c : ascii) : bool :=
  match s with
  | EmptyString => false
  | String c' r => Ascii.eqb c' c || contains r c
  end.

End Strings.

(** ** [mime.ParseMediaType] of the Go standard library

    The handler keeps the media type and the error and drops the parameter
    map, so the model returns those two. The parameters are still parsed:
    a malformed or conflicting parameter is an error. *)

Module Mime.
Import Strings.

Definition ErrInvalidMediaParameter : string := "mime: invalid media parameter".

(** The double quote, byte 34. *)
Definition dquote : ascii := "034"%char.

(** The backslash, byte 92. *)
Definition backslash : ascii := "092"%char.

(** The special characters of RFC 1521 and RFC 2045: the thirteen below,
    the backslash and the double quote. *)
Definition isTSpecial (c : ascii) : bool :=
  contains "()<>@,;:/[]?=" c || Ascii.eqb c backslash || Ascii.eqb c dquote.

Definition isTokenChar (c : ascii) : bool :=
  let n := N_of_ascii c in
  ((32 <? n) && (n <? 127))%N && negb (isTSpecial c).

Definition consumeToken (v : string) : string * string := span isTokenChar v.

Definition checkMediaTypeDisposition (s : string) : option string :=
  let '(typ, rest) := consumeToken s in
  if String.eqb typ EmptyString then Some "mime: no media type"
  else if String.eqb rest EmptyString then None
  else if negb (HasPrefix rest "/") then Some "mime: expected slash after first token"
  else
    let '(subtype, rest) := consumeToken (tail rest) in
    if String.eqb subtype EmptyString then Some "mime: expected token after slash"
    else if negb (String.eqb rest EmptyString) then Some "mime: unexpected content after media subtype"
    else None.

(** The loop of [consumeValue] over a quoted string, from the byte after
    the opening quote: the value read so far is [acc];
    [None] when a line break or the end of the input comes before the
    closing quote. *)
Fixpoint quoted (v : string) (acc : string) : option (string * string) :=
  match v with
  | EmptyString => None
  | String c r =>
      if Ascii.eqb c dquote then Some (acc, r)
      else if Ascii.eqb c backslash then
        match r with
        | String c' r' =>
            if isTSpecial c' then quoted r' (acc ++ String c' EmptyString)
            else quoted r (acc ++ String c EmptyString)
        | EmptyString => quoted r (acc ++ String c EmptyString)
        end
      else if Ascii.eqb c "013" || Ascii.eqb c "010" then None
      else quoted r (acc ++ String c EmptyString)
  end.

Definition consumeValue (v : string) : string * string :=
  match v with
  | EmptyString => (EmptyString, EmptyString)
  | String c r =>
      if Ascii.eqb c dquote then
        match quoted r EmptyString with
        | Some (value, rest) => (value, rest)
        | None => (EmptyString, v)
        end
      else consumeToken v
  end.

Definition consumeMediaParam (v : string) : string * string * string :=
  let rest := TrimLeft v in
  if negb (HasPrefix rest ";") then (EmptyString, EmptyString, v)
  else
    let rest := TrimLeft (tail rest) in
    let '(param, rest) := consumeToken rest in
    let param := ToLower param in
    if String.eqb param EmptyString then (EmptyString, EmptyString, v)
    else
      let rest := TrimLeft rest in
      if negb (HasPrefix rest "=") then (EmptyString, EmptyString, v)
      else
        let rest := TrimLeft (tail rest) in
        let '(value, rest2) := consumeValue rest in
        if String.eqb value EmptyString && String.eqb rest2 rest then (EmptyString, EmptyString, v)
        else (param, value, rest2).

Fixpoint lookup_param (key : string) (params : list (string * string)) : option string :=
  match params with
  | [] => None
  | (k, x) :: ps => if String.eqb k key then Some x else lookup_param key ps
  end.

(** The parameter loop [for len(v) > 0 { ... }]. Every round consumes at
    least the semicolon of a parameter, so the length of [v] plus one is
    enough [fuel] ([paramLoop_total]); the outer [None] is the loop running
    out of it. The inner option is the error returned, [None] for [nil].
    A parameter whose name holds a star goes to a map of its own in the
    source, one per base name; a name lies in one map only, so the one
    list [params] finds the same duplicates. *)
Fixpoint paramLoop (fuel : nat) (v : string) (params : list (string * string))
  : option (option string) :=
  match fuel with
  | O => None
  | S fuel' =>
      if String.eqb v EmptyString then Some None
      else
        let v := TrimLeft v in
        if String.eqb v EmptyString then Some None
        else
          let '(key, value, rest) := consumeMediaParam v in
          if String.eqb key EmptyString then
            if String.eqb (TrimSpace rest) ";" then Some None
            else Some (Some ErrInvalidMediaParameter)
          else
            match lookup_param key params with
            | Some x =>
                if String.eqb x value then paramLoop fuel' rest ((key, value) :: params)
                else Some (Some "mime: duplicate parameter name")
            | None => paramLoop fuel' rest ((key, value) :: params)
            end
  end.

(** [mediatype, _, err := mime.ParseMediaType(v)] *)
Definition ParseMediaType (v : string) : string * option string :=
  let '(base, rest) := span (fun c => negb (Ascii.eqb c ";")) v in
  let mediatype := TrimSpace (ToLower base) in
  match checkMediaTypeDisposition mediatype with
  | Some e => (EmptyString, Some e)
  | None =>
      match paramLoop (S (String.length rest)) rest [] with
      | Some None => (mediatype, None)
      | Some (Some e) =>
          if String.eqb e ErrInvalidMediaParameter then (mediatype, Some e) else (EmptyString, Some e)
      | None => (EmptyString, Some "mime: parameter loop did not end")
      end
  end.

End Mime.

(** ** [hex.EncodeToString] *)

Module Hex.

Definition hextable : string := "0123456789abcdef".

Definition digit (n : N) : ascii :=
  match String.get (N.to_nat n) hextable with
  | Some c => c
  | None => "0"%char
  end.

(** [dst[j] = hextable[v>>4]; dst[j+1] = hextable[v&0x0f]] for every byte
    [v] of the source. *)
Fixpoint EncodeToString (src : list Byte.byte) : string :=
  match src with
  | [] => EmptyString
  | v :: rest =>
      String (digit (N.shiftr (Byte.to_N v) 4))
        (String (digit (N.land (Byte.to_N v) 15)) (EncodeToString rest))
  end.

Definition is_lower_hex (c : ascii) : bool := Strings.contains hextable c.

End Hex.


(** ** The world of the handler *)

(** [uuid.UUID], sixteen bytes, as the number they spell. *)
Definition UUID : Type := N.

(** Modelled from the spec: the record type [database.Video] is declared
    outside the two source files; the record has an identifier, an owner
    identifier and a nullable remote-URL field. *)
Record Video : Type := {
  ID : UUID;
  UserID : UUID;
  VideoURL : option string
}.

(** [video.VideoURL = &u] *)
Definition set_VideoURL (v : Video) (u : string) : Video :=
  {| ID := ID v; UserID := UserID v; VideoURL := Some u |}.

(** What [PutObject] stores under a key. *)
Record S3Object : Type := {
  Body : list Byte.byte;
  ContentType : string
}.

Record World : Type := {
  db : gmap N Video;                       (* the record store, by identifier *)
  objects : gmap (string * string) S3Object; (* the object store, by bucket and key *)
  tmp : gmap string (list Byte.byte)        (* the files of the temporary directory *)
}.

(** The calls the handler makes that act on the world or on the response,
    in the order they are made. *)
Inductive Event : Type :=
| EGetVideo (id : UUID)
| ECloseUpload
| ECreateTemp (name : string)
| ECopy (name : string)
| EProbe (path : string)
| ESeek (name : string)
| ERandRead
| EPutObject (bucket key : string) (accepted : bool)
| EUpdateVideo (v : Video) (done : bool)
| ECloseTemp (name : string)
| ERemove (name : string)
| ERespond (code : Z).

(** [*apiConfig]: the fields the handler reads; [cfg.db] and
    [cfg.s3Client] are the handles on [db] and [objects] of the world. *)
Record apiConfig : Type := {
  jwtSecret : string;
  s3Bucket : string;
  s3Region : string
}.

(** One file part of the parsed form: [*multipart.FileHeader] and the bytes
    [multipart.File] reads. *)
Record FileHeader : Type := {
  Filename : string;
  PartHeader : list (string * string);
  Content : list Byte.byte
}.

(** [*http.Request]: the path values, the header of the request itself, the
    length of the body and what [ParseMultipartForm] makes of the body (the
    file parts by field name, or the error). *)
Record Request : Type := {
  PathValue : string -> string;
  Header : list (string * string);
  BodyLength : Z;
  MultipartForm : result (list (string * FileHeader))
}.

(** What the collaborators outside the handler answer during one request:
    the identifier parser, the credential checks, the temporary directory,
    the copy, the probe process and the decoder of its output, the seek, the
    random source, the object store and the record store. *)
Record Env : Type := {
  uuid_Parse : string -> result UUID;
  auth_GetBearerToken : list (string * string) -> result string;
  auth_ValidateJWT : string -> string -> result UUID;
  os_CreateTemp : string -> result string;
  (* the error of the copy, and how many bytes were written before it *)
  io_Copy : list Byte.byte -> option (nat * string);
  exec_ffprobe : string -> result (list Byte.byte);
  json_Unmarshal : list Byte.byte -> result (list Stream);
  file_Seek : option string;
  (* the bytes the random source writes into the buffer, or its error *)
  crand_Read : result (list Byte.byte);
  s3_PutObject : string -> string -> option string;
  db_UpdateVideo : Video -> option string
}.

(** The body and status written to the [http.ResponseWriter]. *)
Record Response : Type := {
  StatusCode : Z;
  Payload : list (string * string)
}.

Record HState : Type := {
  world : World;
  response : option Response;
  trace : list Event
}.

Definition StatusOK : Z := 200.
Definition StatusBadRequest : Z := 400.
Definition StatusUnauthorized : Z := 401.
Definition StatusForbidden : Z := 403.
Definition StatusNotFound : Z := 404.
Definition StatusInternalServerError : Z := 500.

Definition maxUploadSize : Z := Z.shiftl 1 30.

(** ** The handler monad: state, and [return] out of the handler *)

(** A computation either goes on with a value ([Some]) or has executed a
    [return] statement ([None]). *)
Definition Handler (A : Type) : Type := HState -> HState * option A.

#[global] Instance Handler_ret : MRet Handler :=
  fun A (a : A) (s : HState) => (s, Some a).

#[global] Instance Handler_bind : MBind Handler :=
  fun A B (f : A -> Handler B) (m : Handler A) (s : HState) =>
    match m s with
    | (s', Some a) => f a s'
    | (s', None) => (s', None)
    end.

(** The [return] statement. *)
Definition return_ {A : Type} : Handler A := fun s => (s, None).

(** [defer f]: [f] runs when the handler returns, however the statements
    after the [defer] leave it. *)
Definition defer {A : Type} (f : HState -> HState) (rest : Handler A) : Handler A :=
  fun s => let '(s', r) := rest s in (f s', r).

Definition emit (e : Event) (s : HState) : HState :=
  {| world := world s; response := response s; trace := trace s ++ [e] |}.

Definition set_world (w : World) (s : HState) : HState :=
  {| world := w; response := response s; trace := trace s |}.

(** Modelled from the spec: [respondWithJSON] is defined outside the two
    source files; it writes the status and the JSON object. *)
Definition respondWithJSON (code : Z) (payload : list (string * string)) : Handler unit :=
  fun s =>
    (emit (ERespond code)
       {| world := world s;
          response := Some {| StatusCode := code; Payload := payload |};
          trace := trace s |},
     Some tt).

(** Modelled from the spec: [respondWithError] is defined outside the two
    source files; it answers with the status and a structured JSON error
    body that carries the message (the cause [err] is logged only). *)
Definition respondWithError (code : Z) (msg : string) (err : option string) : Handler unit :=
  respondWithJSON code [("error", msg)].

(** [if err != nil { respondWithError(w, code, msg, err); return }] *)
Definition orFail {A : Type} (r : result A) (code : Z) (msg : string) : Handler A :=
  match r with
  | Ok a => mret a
  | Err e => respondWithError code msg (Some e) ;; return_
  end.

(** The same for a call that returns the error alone. *)
Definition orFailErr (r : option string) (code : Z) (msg : string) : Handler unit :=
  match r with
  | None => mret tt
  | Some e => respondWithError code msg (Some e) ;; return_
  end.

(** ** The calls of the handler *)

(** [h.Get(key)] on a header whose keys are in canonical form: the first
    value, the empty string when there is none. *)
Fixpoint Header_Get (h : list (string * string)) (key : string) : string :=
  match h with
  | [] => EmptyString
  | (k, v) :: rest => if String.eqb k key then v else Header_Get rest key
  end.

(** Modelled from the spec: [cfg.db.GetVideo] is defined outside the two
    source files; [get(id) -> record | not-found]. *)
Definition GetVideo (id : UUID) : Handler (result Video) :=
  fun s =>
    (emit (EGetVideo id) s,
     Some match db (world s) !! id with
          | Some v => Ok v
          | None => Err "sql: no rows in result set"
          end).

(** Modelled from the spec: [cfg.db.UpdateVideo] is defined outside the two
    source files; [update(record) -> ok | error], keyed by the identifier of
    the record; a failed update leaves the store as it was. *)
Definition UpdateVideo (env : Env) (v : Video) : Handler (option string) :=
  fun s =>
    match db_UpdateVideo env v with
    | Some e => (emit (EUpdateVideo v false) s, Some (Some e))
    | None =>
        (emit (EUpdateVideo v true)
           (set_world {| db := <[ID v := v]> (db (world s));
                         objects := objects (world s);
                         tmp := tmp (world s) |} s),
         Some None)
    end.

(** [r.ParseMultipartForm(maxMemory)], behind
    [http.MaxBytesReader(w, r.Body, maxUploadSize)]. Where the library keeps
    the parts while the handler runs (memory up to [maxMemory], files of its
    own beyond) is its own affair and the server's, which removes them; the
    world below holds what the handler itself creates. *)
Definition ParseMultipartForm (r : Request) : result (list (string * FileHeader)) :=
  if maxUploadSize <? BodyLength r then Err "http: request body too large"
  else MultipartForm r.

(** [r.FormFile(key)]: the first file part of that name. *)
Fixpoint FormFile (form : list (string * FileHeader)) (key : string) : result FileHeader :=
  match form with
  | [] => Err "http: no such file"
  | (k, fh) :: rest => if String.eqb k key then Ok fh else FormFile rest key
  end.

(** [os.CreateTemp(dir, pattern)]: a new, empty file under a name that no
    file has yet. *)
Definition CreateTemp (env : Env) (pattern : string) : Handler (result string) :=
  fun s =>
    match os_CreateTemp env pattern with
    | Err e => (s, Some (Err e))
    | Ok name =>
        match tmp (world s) !! name with
        | Some _ => (s, Some (Err "file exists"))
        | None =>
            (emit (ECreateTemp name)
               (set_world {| db := db (world s);
                             objects := objects (world s);
                             tmp := <[name := []]> (tmp (world s)) |} s),
             Some (Ok name))
        end
    end.

(** [io.Copy(tempFile, file)] *)
Definition Copy (env : Env) (name : string) (src : list Byte.byte) : Handler (option string) :=
  fun s =>
    let '(written, err) :=
      match io_Copy env src with
      | None => (src, None)
      | Some (n, e) => (take n src, Some e)
      end in
    (emit (ECopy name)
       (set_world {| db := db (world s);
                     objects := objects (world s);
                     tmp := <[name := written]> (tmp (world s)) |} s),
     Some err).

(** [getVideoAspectRatio(filePath)]: run the probe, decode its output,
    classify the streams. *)
Definition getVideoAspectRatio (env : Env) (filePath : string) : result string :=
  match exec_ffprobe env filePath with
  | Err e => Err e
  | Ok out =>
      match json_Unmarshal env out with
      | Err e => Err e
      | Ok streams => Ok (classifyStreams streams)
      end
  end.

Definition probe (env : Env) (filePath : string) : Handler (result string) :=
  fun s => (emit (EProbe filePath) s, Some (getVideoAspectRatio env filePath)).

(** [tempFile.Seek(0, io.SeekStart)] *)
Definition Seek (env : Env) (name : string) : Handler (option string) :=
  fun s => (emit (ESeek name) s, Some (file_Seek env)).

(** The buffer [b] after the bytes [rnd] were written from its start: its
    length stays. *)
Definition overwrite (b rnd : list Byte.byte) : list Byte.byte :=
  take (length b) (rnd ++ drop (length rnd) b).

(** [crand.Read(b)]: the random bytes overwrite the buffer [b]. *)
Definition Read (env : Env) (b : list Byte.byte) : Handler (result (list Byte.byte)) :=
  fun s =>
    (emit ERandRead s,
     Some match crand_Read env with
          | Ok rnd => Ok (overwrite b rnd)
          | Err e => Err e
          end).

(** [cfg.s3Client.PutObject]: on success the store holds the bytes of the
    temporary file, read from its start, under the bucket and key. *)
Definition PutObject (env : Env) (bucket key name contentType : string) : Handler (option string) :=
  fun s =>
    match s3_PutObject env bucket key with
    | Some e => (emit (EPutObject bucket key false) s, Some (Some e))
    | None =>
        (emit (EPutObject bucket key true)
           (set_world {| db := db (world s);
                         objects :=
                           <[(bucket, key) :=
                               {| Body := default [] (tmp (world s) !! name);
                                  ContentType := contentType |}]> (objects (world s));
                         tmp := tmp (world s) |} s),
         Some None)
    end.

(** The deferred [file.Close()] of the uploaded part. *)
Definition closeUpload (s : HState) : HState := emit ECloseUpload s.

(** The deferred [func() { tempFile.Close(); os.Remove(tempFile.Name()) }()].
    The source drops the errors of both calls; on the file the handler has
    just created they are taken to succeed. *)
Definition closeAndRemove (name : string) (s : HState) : HState :=
  emit (ERemove name)
    (emit (ECloseTemp name)
       (set_world {| db := db (world s);
                     objects := objects (world s);
                     tmp := delete name (tmp (world s)) |} s)).

(** The [switch aspectRatio] that picks the prefix of the key. *)
Definition aspectRatioPrefix (aspectRatio : string) : string :=
  if String.eqb aspectRatio "16:9" || String.eqb aspectRatio "4:3" then "landscape"
  else if String.eqb aspectRatio "9:16" || String.eqb aspectRatio "3:4" then "portrait"
  else "other".

(** [fmt.Sprintf("videos/%s/%s.mp4", aspectRatioPrefix, randomHexFilename)] *)
Definition s3Key (prefix randomHexFilename : string) : string :=
  "videos/" ++ prefix ++ "/" ++ randomHexFilename ++ ".mp4".

(** [fmt.Sprintf("https://%s.s3.%s.amazonaws.com/%s", cfg.s3Bucket, cfg.s3Region, s3Key)] *)
Definition videoURL (cfg : apiConfig) (key : string) : string :=
  "https://" ++ s3Bucket cfg ++ ".s3." ++ s3Region cfg ++ ".amazonaws.com/" ++ key.

(** ** [handlerUploadVideo]

    The statements of the source in their order. The context with its
    timeout of thirty minutes and the deferred [cancel] are left out: a
    [PutObject] that runs out of time is a [PutObject] that returns an
    error. *)

Definition handlerUploadVideo (cfg : apiConfig) (env : Env) (r : Request) : Handler unit :=
  videoID ← orFail (uuid_Parse env (PathValue r "videoID")) StatusBadRequest "Invalid ID";
  token ← orFail (auth_GetBearerToken env (Header r)) StatusUnauthorized "Couldn't find JWT";
  userID ← orFail (auth_ValidateJWT env token (jwtSecret cfg))
             StatusUnauthorized "Couldn't validate JWT";
  got ← GetVideo videoID;
  video ← orFail got StatusNotFound "Video not found";
  if negb (N.eqb (UserID video) userID) then
    respondWithError StatusForbidden "You do not own this video" None ;; return_
  else
  form ← orFail (ParseMultipartForm r)
           StatusInternalServerError "Failed to parse multipart form";
  fileHeader ← orFail (FormFile form "video") StatusBadRequest "Failed to retrieve video file";
  defer closeUpload (
  let '(mediaType, err) := Mime.ParseMediaType (Header_Get (PartHeader fileHeader) "Content-Type") in
  orFailErr err StatusBadRequest "Invalid Content-Type" ;;
  if negb (String.eqb mediaType "video/mp4") then
    respondWithError StatusBadRequest "Invalid file type" None ;; return_
  else
  created ← CreateTemp env "tubely-upload-*.mp4";
  tempFile ← orFail created StatusInternalServerError "Failed to create temp file";
  defer (closeAndRemove tempFile) (
  copied ← Copy env tempFile (Content fileHeader);
  orFailErr copied StatusInternalServerError "Failed to save uploaded file" ;;
  probed ← probe env tempFile;
  aspectRatio ← orFail probed StatusInternalServerError "Failed to get video aspect ratio";
  let prefix := aspectRatioPrefix aspectRatio in
  sought ← Seek env tempFile;
  orFailErr sought StatusInternalServerError "Failed to seek temp file" ;;
  rnd ← Read env (replicate 32 Byte.x00);
  randomBytes ← orFail rnd StatusInternalServerError "Error generating random filename";
  let randomHexFilename := Hex.EncodeToString randomBytes in
  let key := s3Key prefix randomHexFilename in
  put ← PutObject env (s3Bucket cfg) key tempFile mediaType;
  orFailErr put StatusInternalServerError "Failed to upload file to S3" ;;
  let url := videoURL cfg key in
  let video := set_VideoURL video url in
  updated ← UpdateVideo env video;
  orFailErr updated StatusInternalServerError "Failed to update video URL in database" ;;
  respondWithJSON StatusOK
    [("message", "Video uploaded successfully"); ("video_url", url)])).

(** One request served against a world: the world after it, the response
    written and the calls made. *)
Definition serve (cfg : apiConfig) (env : Env) (r : Request) (w : World) : HState :=
  fst (handlerUploadVideo cfg env r {| world := w; response := None; trace := [] |}).

(** ** How far a request gets

    The conditions under which the handler reaches each of its stages, on
    the answers of the collaborators. *)

(** The failure kinds of the handler, as the specification names them. *)
Inductive Failure : Type :=
| BadIdentifier | MissingCredential | InvalidCredential | NotFound | Forbidden
| MalformedForm | MissingFilePart | UnsupportedMediaType | LocalIOFailure
| ProbeFailure | RemoteUploadFailure | RecordUpdateFailure.

Section Stages.
Variables (cfg : apiConfig) (env : Env) (r : Request) (w : World).

(** The identifier parses, the credential is valid, the record exists and
    the caller owns it. *)
Definition authorized (videoID : UUID) (video : Video) : Prop :=
  exists token,
    uuid_Parse env (PathValue r "videoID") = Ok videoID /\
    auth_GetBearerToken env (Header r) = Ok token /\
    auth_ValidateJWT env token (jwtSecret cfg) = Ok (UserID video) /\
    db w !! videoID = Some video.

(** The form parses and holds a file part named "video". *)
Definition part_found (videoID : UUID) (video : Video) (fh : FileHeader) : Prop :=
  authorized videoID video /\
  exists form,
    ParseMultipartForm r = Ok form /\ FormFile form "video" = Ok fh.

(** The declared content type of the part, parsed. *)
Definition declared_type (fh : FileHeader) : string * option string :=
  Mime.ParseMediaType (Header_Get (PartHeader fh) "Content-Type").

(** The content type passes and the temporary file [name] is created. *)
Definition staged (videoID : UUID) (video : Video) (fh : FileHeader) (name : string) : Prop :=
  part_found videoID video fh /\
  declared_type fh = ("video/mp4", None) /\
  os_CreateTemp env "tubely-upload-*.mp4" = Ok name /\
  tmp w !! name = None.

(** The part is copied and the classifier answers [label]. *)
Definition classified (videoID : UUID) (video : Video) (fh : FileHeader) (name label : string)
  : Prop :=
  staged videoID video fh name /\
  io_Copy env (Content fh) = None /\
  getVideoAspectRatio env name = Ok label.

(** The buffer of 32 bytes after [crand.Read] wrote [rnd] into it. *)
Definition randomBytes (rnd : list Byte.byte) : list Byte.byte :=
  overwrite (replicate 32 Byte.x00) rnd.

(** The file is rewound and the random name drawn: the object key is
    [key]. *)
Definition keyed (videoID : UUID) (video : Video) (fh : FileHeader) (name label key : string)
  : Prop :=
  classified videoID video fh name label /\
  file_Seek env = None /\
  exists rnd,
    crand_Read env = Ok rnd /\
    key = s3Key (aspectRatioPrefix label) (Hex.EncodeToString (randomBytes rnd)).

(** The request fails with a given kind: every earlier step succeeds and
    the step of that kind does not. *)
Inductive fails : Failure -> Prop :=
| fails_bad_identifier e :
    uuid_Parse env (PathValue r "videoID") = Err e ->
    fails BadIdentifier
| fails_missing_credential videoID e :
    uuid_Parse env (PathValue r "videoID") = Ok videoID ->
    auth_GetBearerToken env (Header r) = Err e ->
    fails MissingCredential
| fails_invalid_credential videoID token e :
    uuid_Parse env (PathValue r "videoID") = Ok videoID ->
    auth_GetBearerToken env (Header r) = Ok token ->
    auth_ValidateJWT env token (jwtSecret cfg) = Err e ->
    fails InvalidCredential
| fails_not_found videoID token userID :
    uuid_Parse env (PathValue r "videoID") = Ok videoID ->
    auth_GetBearerToken env (Header r) = Ok token ->
    auth_ValidateJWT env token (jwtSecret cfg) = Ok userID ->
    db w !! videoID = None ->
    fails NotFound
| fails_forbidden videoID token userID video :
    uuid_Parse env (PathValue r "videoID") = Ok videoID ->
    auth_GetBearerToken env (Header r) = Ok token ->
    auth_ValidateJWT env token (jwtSecret cfg) = Ok userID ->
    db w !! videoID = Some video ->
    UserID video <> userID ->
    fails Forbidden
| fails_malformed_form videoID video e :
    authorized videoID video ->
    ParseMultipartForm r = Err e ->
    fails MalformedForm
| fails_missing_file_part videoID video form e :
    authorized videoID video ->
    ParseMultipartForm r = Ok form ->
    FormFile form "video" = Err e ->
    fails MissingFilePart
| fails_unsupported_media_type videoID video fh :
    part_found videoID video fh ->
    declared_type fh <> ("video/mp4", None) ->
    fails UnsupportedMediaType
| fails_create_temp videoID video fh e :
    part_found videoID video fh ->
    declared_type fh = ("video/mp4", None) ->
    os_CreateTemp env "tubely-upload-*.mp4" = Err e ->
    fails LocalIOFailure
| fails_copy videoID video fh name n e :
    staged videoID video fh name ->
    io_Copy env (Content fh) = Some (n, e) ->
    fails LocalIOFailure
| fails_probe videoID video fh name e :
    staged videoID video fh name ->
    io_Copy env (Content fh) = None ->
    getVideoAspectRatio env name = Err e ->
    fails ProbeFailure
| fails_seek videoID video fh name label e :
    classified videoID video fh name label ->
    file_Seek env = Some e ->
    fails LocalIOFailure
| fails_remote_upload videoID video fh name label key e :
    keyed videoID video fh name label key ->
    s3_PutObject env (s3Bucket cfg) key = Some e ->
    fails RemoteUploadFailure
| fails_record_update videoID video fh name label key e :
    keyed videoID video fh name label key ->
    s3_PutObject env (s3Bucket cfg) key = None ->
    db_UpdateVideo env (set_VideoURL video (videoURL cfg key)) = Some e ->
    fails RecordUpdateFailure.

(** Every step succeeds. *)
Definition succeeds (videoID : UUID) (video : Video) (fh : FileHeader) (name label key : string)
  : Prop :=
  keyed videoID video fh name label key /\
  s3_PutObject env (s3Bucket cfg) key = None /\
  db_UpdateVideo env (set_VideoURL video (videoURL cfg key)) = None.

End Stages.

(** The status each [respondWithError] call of the handler answers with, by
    the kind of the failure it reports. *)
Definition failure_status (k : Failure) : Z :=
  match k with
  | BadIdentifier => StatusBadRequest
  | MissingCredential => StatusUnauthorized
  | InvalidCredential => StatusUnauthorized
  | NotFound => StatusNotFound
  | Forbidden => StatusForbidden
  | MalformedForm => StatusInternalServerError
  | MissingFilePart => StatusBadRequest
  | UnsupportedMediaType => StatusBadRequest
  | LocalIOFailure => StatusInternalServerError
  | ProbeFailure => StatusInternalServerError
  | RemoteUploadFailure => StatusInternalServerError
  | RecordUpdateFailure => StatusInternalServerError
  end.

(** The status of the response written, if any. *)
Definition status (s : HState) : option Z := StatusCode <$> response s.

(** The calls that persist bytes or change a store: the creation of the
    temporary file, the copy into it, the upload and the record update. *)
Definition stores (e : Event) : bool :=
  match e with
  | ECreateTemp _ | ECopy _ | EPutObject _ _ _ | EUpdateVideo _ _ => true
  | _ => false
  end.

(** The record store took the update of the URL. *)
Definition record_updated (s : HState) : Prop :=
  exists v, In (EUpdateVideo v true) (trace s).

(** The handler asked the record store to update the record. *)
Definition update_requested (s : HState) : Prop :=
  exists v done, In (EUpdateVideo v done) (trace s).

(** The object store accepted the upload. *)
Definition upload_accepted (s : HState) : Prop :=
  exists bucket key, In (EPutObject bucket key true) (trace s).

(** Every [UpdateVideo] call of a trace comes after an accepted [PutObject];
    [seen] tells whether one was met already. *)
Fixpoint update_after_put (seen : bool) (tr : list Event) : bool :=
  match tr with
  | [] => true
  | EPutObject _ _ true :: rest => update_after_put true rest
  | EUpdateVideo _ _ :: rest => seen && update_after_put seen rest
  | _ :: rest => update_after_put seen rest
  end.


(** Every byte of a string satisfies [p]. *)
Fixpoint all_chars (p : ascii -> bool) (s : string) : bool :=
  match s with
  | EmptyString => true
  | String c rest => p c && all_chars p rest
  end.

(** ** The classifier as the specification words it *)

(** The first stream that passes the filter of the loop: codec type "video",
    width and height both positive. *)
Definition first_qualifying (streams : list Stream) : option Stream :=
  List.find (fun s => negb (skipped s)) streams.

(** The label taken from that stream alone: the band of its ratio, "other"
    when the ratio is in no band or no stream passes the filter. *)
Definition label_of_first_qualifying (streams : list Stream) : string :=
  match first_qualifying streams with
  | Some s => default "other" (stream_label s)
  | None => "other"
  end.

(** A stream the loop passes over: filtered out, or with a ratio in no
    band. *)
Definition passed_over (s : Stream) : Prop :=
  skipped s = true \/ stream_label s = None.

(** ** Sample inputs *)

Module Sample.

Definition video_stream (w h : Z) (rotate : string) : Stream :=
  {| CodecType := "video"; Width := w; Height := h; Rotate := rotate |}.

Definition audio_stream : Stream :=
  {| CodecType := "audio"; Width := 0; Height := 0; Rotate := EmptyString |}.

Definition cfg : apiConfig :=
  {| jwtSecret := "secret"; s3Bucket := "tubely"; s3Region := "us-east-2" |}.

Definition owner : UUID := 7%N.

Definition video : Video := {| ID := 1%N; UserID := owner; VideoURL := None |}.

Definition world : World := {| db := {[ 1%N := video ]}; objects := ∅; tmp := ∅ |}.

Definition part (contentType : string) : FileHeader :=
  {| Filename := "clip.mp4";
     PartHeader := [("Content-Type", contentType)];
     Content := [Byte.x00; Byte.x00; Byte.x00; Byte.x18] |}.

(** A request for record 1 whose own Content-Type is [outer] and whose
    file part declares [contentType]. *)
Definition request (outer contentType : string) : Request :=
  {| PathValue := fun _ => "00000000-0000-0000-0000-000000000001";
     Header := [("Authorization", "Bearer token"); ("Content-Type", outer)];
     BodyLength := 4096;
     MultipartForm := Ok [("video", part contentType)] |}.

Definition tempName : string := "/tmp/tubely-upload-1234.mp4".

(** Collaborators that answer as given for the credential checks, the
    probe, the object store and the record store, and succeed elsewhere. *)
Definition env (bearer : result string) (jwt : result UUID) (streams : list Stream)
    (put update : option string) : Env :=
  {| uuid_Parse := fun s =>
       if String.eqb s "00000000-0000-0000-0000-000000000001" then Ok 1%N
       else Err "invalid UUID length";
     auth_GetBearerToken := fun _ => bearer;
     auth_ValidateJWT := fun _ _ => jwt;
     os_CreateTemp := fun _ => Ok tempName;
     io_Copy := fun _ => None;
     exec_ffprobe := fun _ => Ok [];
     json_Unmarshal := fun _ => Ok streams;
     file_Seek := None;
     crand_Read := Ok (replicate 32 Byte.xab);
     s3_PutObject := fun _ _ => put;
     db_UpdateVideo := fun _ => update |}.

(** Every collaborator succeeds; the probe reports [streams]. *)
Definition good_env (streams : list Stream) : Env :=
  env (Ok "token") (Ok owner) streams None None.

Definition hex_ab : string :=
  "abababababababababababababababababababababababababababababababab".

End Sample.

(** ** Further definitions for the properties below *)

(** The five labels [getVideoAspectRatio] can return. *)
Definition labels : list string := ["16:9"; "4:3"; "9:16"; "3:4"; "other"].

(** The statuses written to the response writer, in order. *)
Fixpoint responses (tr : list Event) : list Z :=
  match tr with
  | [] => []
  | ERespond code :: rest => code :: responses rest
  | _ :: rest => responses rest
  end.

(** The record store is keyed by the identifier of the records it holds. *)
Definition keyed_by_ID (d : gmap N Video) : Prop :=
  forall id v, d !! id = Some v -> ID v = id.

(** The place of a hexadecimal digit in [Hex.hextable], and the byte two of
    them spell: the way back from [Hex.EncodeToString]. *)
Definition undigit (c : ascii) : N :=
  let n := N_of_ascii c in
  if ((48 <=? n) && (n <=? 57))%N then (n - 48)%N
  else if ((97 <=? n) && (n <=? 102))%N then (n - 87)%N
  else 0%N.

Definition unpair (hi lo : ascii) : Byte.byte :=
  default Byte.x00 (Byte.of_N (16 * undigit hi + undigit lo)).

(** ** The quotient of two integers, exactly *)

(** Rounding to nearest, ties to even, of the quotient [N / D] of two
    positive integers to an integer. *)
Definition rne (N D : Z) : Z :=
  N / D + (if (D <? 2 * (N mod D)) || ((2 * (N mod D) =? D) && Z.odd (N / D)) then 1 else 0).

(** The float of mantissa [m] and exponent [e], for [m] from [2^52] to
    [2^53]: a mantissa that rounding carried up to [2^53] moves to the next
    exponent. *)
Definition renorm (m e : Z) : Float64.float64 :=
  if m =? 2 ^ 53 then S754_finite false (2 ^ 52) (e + 1)
  else S754_finite false (Z.to_pos m) e.

(** The four bands on the exact quotient [w / h], with the decimals of the
    source as fractions: 1.6 = 8/5, 1.85 = 37/20, 1.28 = 32/25,
    1.36 = 34/25, 0.53 = 53/100, 0.62 = 31/50, 0.73 = 73/100, 0.82 = 41/50;
    all limits are excluded. *)
Definition band_exact (w h : Z) : option string :=
  if (8 * h <? 5 * w) && (20 * w <? 37 * h) then Some "16:9"
  else if (32 * h <? 25 * w) && (25 * w <? 34 * h) then Some "4:3"
  else if (53 * h <? 100 * w) && (50 * w <? 31 * h) then Some "9:16"
  else if (73 * h <? 100 * w) && (50 * w <? 41 * h) then Some "3:4"
  else None.

(** ** The handler before classification

    [handlerUploadVideo] as the second source file has it: the same steps
    without the probe, the file rewound right after the copy, and the object
    put directly under [videos/]. (Its context times out after two minutes;
    as above the context is left out.) *)

Module Plain.

(** [fmt.Sprintf("videos/%s.mp4", randomFilename)] *)
Definition s3Key (randomFilename : string) : string :=
  "videos/" ++ randomFilename ++ ".mp4".

Definition handlerUploadVideo (cfg : apiConfig) (env : Env) (r : Request) : Handler unit :=
  videoID ← orFail (uuid_Parse env (PathValue r "videoID")) StatusBadRequest "Invalid ID";
  token ← orFail (auth_GetBearerToken env (Header r)) StatusUnauthorized "Couldn't find JWT";
  userID ← orFail (auth_ValidateJWT env token (jwtSecret cfg))
             StatusUnauthorized "Couldn't validate JWT";
  got ← GetVideo videoID;
  video ← orFail got StatusNotFound "Video not found";
  if negb (N.eqb (UserID video) userID) then
    respondWithError StatusForbidden "You do not own this video" None ;; return_
  else
  form ← orFail (ParseMultipartForm r)
           StatusInternalServerError "Failed to parse multipart form";
  fileHeader ← orFail (FormFile form "video") StatusBadRequest "Failed to retrieve video file";
  defer closeUpload (
  let '(mediaType, err) := Mime.ParseMediaType (Header_Get (PartHeader fileHeader) "Content-Type") in
  orFailErr err StatusBadRequest "Invalid Content-Type" ;;
  if negb (String.eqb mediaType "video/mp4") then
    respondWithError StatusBadRequest "Invalid file type" None ;; return_
  else
  created ← CreateTemp env "tubely-upload-*.mp4";
  tempFile ← orFail created StatusInternalServerError "Failed to create temp file";
  defer (closeAndRemove tempFile) (
  copied ← Copy env tempFile (Content fileHeader);
  orFailErr copied StatusInternalServerError "Failed to save uploaded file" ;;
  sought ← Seek env tempFile;
  orFailErr sought StatusInternalServerError "Failed to seek temp file" ;;
  rnd ← Read env (replicate 32 Byte.x00);
  randomBytes ← orFail rnd StatusInternalServerError "Error generating random filename";
  let randomFilename := Hex.EncodeToString randomBytes in
  let key := s3Key randomFilename in
  put ← PutObject env (s3Bucket cfg) key tempFile mediaType;
  orFailErr put StatusInternalServerError "Failed to upload file to S3" ;;
  let url := videoURL cfg key in
  let video := set_VideoURL video url in
  updated ← UpdateVideo env video;
  orFailErr updated StatusInternalServerError "Failed to update video URL in database" ;;
  respondWithJSON StatusOK
    [("message", "Video uploaded successfully"); ("video_url", url)])).

Definition serve (cfg : apiConfig) (env : Env) (r : Request) (w : World) : HState :=
  fst (handlerUploadVideo cfg env r {| world := w; response := None; trace := [] |}).

End Plain.

(** * Properties *)

(** ** The classifier *)

(** The eight constants are the binary64 numbers nearest to the decimals of
    the source. *)
Lemma band_constants :
  Float64.c1_6 = Float64.decimal 16 10 /\
  Float64.c1_85 = Float64.decimal 185 100 /\
  Float64.c1_28 = Float64.decimal 128 100 /\
  Float64.c1_36 = Float64.decimal 136 100 /\
  Float64.c0_53 = Float64.decimal 53 100 /\
  Float64.c0_62 = Float64.decimal 62 100 /\
  Float64.c0_73 = Float64.decimal 73 100 /\
  Float64.c0_82 = Float64.decimal 82 100.
Proof.
  repeat split; vm_compute; reflexivity.
Qed.

Lemma oriented_swapped (s : Stream) :
  Rotate s = "90" \/ Rotate s = "270" -> oriented s = (Height s, Width s).
Proof.
  unfold oriented. intros [-> | ->]; reflexivity.
Qed.

Lemma oriented_unswapped (s : Stream) :
  Rotate s <> "90" -> Rotate s <> "270" -> oriented s = (Width s, Height s).
Proof.
  unfold oriented. intros H90 H270.
  apply String.eqb_neq in H90, H270. rewrite H90, H270. reflexivity.
Qed.

Lemma classifyStreams_passed_over (s : Stream) (rest : list Stream) :
  passed_over s -> classifyStreams (s :: rest) = classifyStreams rest.
Proof.
  intros [Hs | Hl]; simpl.
  - rewrite Hs. reflexivity.
  - rewrite Hl. destruct (skipped s); reflexivity.
Qed.

Lemma classifyStreams_all_passed_over (streams : list Stream) :
  Forall passed_over streams -> classifyStreams streams = "other".
Proof.
  induction 1 as [| s rest Hs _ IH]; [reflexivity |].
  rewrite classifyStreams_passed_over by assumption. exact IH.
Qed.

Lemma classifyStreams_app_passed_over (pre rest : list Stream) :
  Forall passed_over pre -> classifyStreams (pre ++ rest) = classifyStreams rest.
Proof.
  induction 1 as [| s pre Hs _ IH]; [reflexivity |].
  rewrite <- app_comm_cons, classifyStreams_passed_over by assumption. exact IH.
Qed.

Lemma classifyStreams_match (s : Stream) (rest : list Stream) (label : string) :
  skipped s = false -> stream_label s = Some label ->
  classifyStreams (s :: rest) = label.
Proof.
  intros Hs Hl. simpl. rewrite Hs, Hl. reflexivity.
Qed.

(** C1, as stated, fails: the first stream that passes the filter is a
    square one, in no band, and the label still comes from the stream after
    it. *)
Lemma C1_later_stream_considered :
  classifyStreams [Sample.video_stream 100 100 EmptyString;
                   Sample.video_stream 1920 1080 EmptyString]
  <> label_of_first_qualifying [Sample.video_stream 100 100 EmptyString;
                                Sample.video_stream 1920 1080 EmptyString].
Proof.
  vm_compute. discriminate.
Qed.

(** C1, amended: the label is that of the first stream that passes the
    filter (codec type "video", width and height positive) and whose ratio
    lies in one of the four bands; the streams before it, filtered out or in
    no band, are passed over, and the answer is "other" exactly when every
    stream is passed over. *)
Theorem C1_label_of_first_stream_in_a_band :
  (forall (pre post : list Stream) (s : Stream) (label : string),
      Forall passed_over pre ->
      skipped s = false ->
      stream_label s = Some label ->
      classifyStreams (pre ++ s :: post) = label) /\
  (forall streams : list Stream,
      Forall passed_over streams -> classifyStreams streams = "other") /\
  (forall streams : list Stream,
      classifyStreams streams = "other" -> Forall passed_over streams).
Proof.
  split; [| split].
  - intros pre post s label Hpre Hs Hl.
    rewrite classifyStreams_app_passed_over by assumption.
    apply classifyStreams_match; assumption.
  - exact classifyStreams_all_passed_over.
  - induction streams as [| s rest IH]; intros H; [constructor |].
    simpl in H. destruct (skipped s) eqn:Hs.
    + constructor; [left; exact Hs | apply IH; exact H].
    + destruct (stream_label s) as [label |] eqn:Hl.
      * exfalso. subst label. revert Hl. unfold stream_label.
        destruct (oriented s) as [a b]. unfold band.
        repeat match goal with
               | |- context [if ?c then _ else _] => destruct c
               end; discriminate.
      * constructor; [right; exact Hl | apply IH; exact H].
Qed.

Lemma C1_label_of_first_stream_in_a_band_witness :
  classifyStreams ([Sample.audio_stream; Sample.video_stream 100 100 EmptyString]
                     ++ Sample.video_stream 640 480 EmptyString
                     :: [Sample.video_stream 1920 1080 EmptyString]) = "4:3".
Proof.
  apply (proj1 C1_label_of_first_stream_in_a_band).
  - constructor; [left; reflexivity |].
    constructor; [right; vm_compute; reflexivity | constructor].
  - reflexivity.
  - vm_compute. reflexivity.
Defined.

(** C5: the label is a function of the codec type, width, height and
    rotation tag of the streams alone, and a stream tagged "90" or "270"
    is labelled as the stream of the transposed width and height tagged "0"
    or "180". *)
Theorem C5_rotation_is_transposition
    (s : Stream) (upright : string) (rest : list Stream) :
  (Rotate s = "90" \/ Rotate s = "270") ->
  (upright = "0" \/ upright = "180") ->
  let transposed :=
    {| CodecType := CodecType s; Width := Height s; Height := Width s; Rotate := upright |} in
  stream_label s = stream_label transposed /\
  classifyStreams (s :: rest) = classifyStreams (transposed :: rest) /\
  (forall s' : Stream,
      CodecType s' = CodecType s -> Width s' = Width s -> Height s' = Height s ->
      Rotate s' = Rotate s ->
      classifyStreams (s' :: rest) = classifyStreams (s :: rest)).
Proof.
  intros Hrot Hup transposed.
  assert (Hl : stream_label s = stream_label transposed).
  { unfold stream_label. rewrite (oriented_swapped s Hrot).
    unfold oriented, transposed; simpl.
    destruct Hup as [-> | ->]; reflexivity. }
  assert (Hk : skipped s = skipped transposed).
  { unfold skipped, transposed; simpl.
    destruct (negb (CodecType s =? "video")%string), (Width s <=? 0), (Height s <=? 0);
      reflexivity. }
  split; [exact Hl | split].
  - simpl. rewrite <- Hl, <- Hk. reflexivity.
  - intros [c' w' h' r'] Hc Hw Hh Hr. simpl in *. subst.
    destruct s; reflexivity.
Qed.

Lemma C5_rotation_is_transposition_witness :
  classifyStreams [Sample.video_stream 1920 1080 "90"]
  = classifyStreams [Sample.video_stream 1080 1920 "0"].
Proof.
  refine (proj1 (proj2
            (C5_rotation_is_transposition (Sample.video_stream 1920 1080 "90") "0" [] _ _))).
  - left; reflexivity.
  - left; reflexivity.
Defined.

(** C9: width and height are swapped exactly when the rotation tag is the
    string "90" or the string "270"; every other tag, "-90", "180" and the
    empty tag of a stream without one among them, leaves them as they are. *)
Theorem C9_swap_exactly_on_90_270 (s : Stream) :
  ((Rotate s = "90" \/ Rotate s = "270") -> oriented s = (Height s, Width s)) /\
  ((Rotate s <> "90" /\ Rotate s <> "270") -> oriented s = (Width s, Height s)) /\
  (Rotate s = "-90" \/ Rotate s = "180" \/ Rotate s = EmptyString ->
   oriented s = (Width s, Height s)).
Proof.
  split; [| split].
  - apply oriented_swapped.
  - intros [H90 H270]. apply oriented_unswapped; assumption.
  - intros H. apply oriented_unswapped;
      destruct H as [-> | [-> | ->]]; discriminate.
Qed.

Lemma C9_swap_exactly_on_90_270_witness :
  oriented (Sample.video_stream 1920 1080 "270") = (1080, 1920) /\
  oriented (Sample.video_stream 1920 1080 "-90") = (1920, 1080).
Proof.
  split.
  - apply (proj1 (C9_swap_exactly_on_90_270 (Sample.video_stream 1920 1080 "270"))).
    right; reflexivity.
  - apply (proj2 (proj2 (C9_swap_exactly_on_90_270 (Sample.video_stream 1920 1080 "-90")))).
    left; reflexivity.
Defined.

(** ** [hex.EncodeToString] and the random buffer *)

Lemma EncodeToString_length (src : list Byte.byte) :
  String.length (Hex.EncodeToString src) = (2 * length src)%nat.
Proof.
  induction src as [| v rest IH]; simpl; [reflexivity | rewrite IH; lia].
Qed.

Lemma digit_lower_hex (v : Byte.byte) :
  Hex.is_lower_hex (Hex.digit (N.shiftr (Byte.to_N v) 4)) = true /\
  Hex.is_lower_hex (Hex.digit (N.land (Byte.to_N v) 15)) = true.
Proof.
  destruct v; split; reflexivity.
Qed.

Lemma EncodeToString_lower_hex (src : list Byte.byte) :
  all_chars Hex.is_lower_hex (Hex.EncodeToString src) = true.
Proof.
  induction src as [| v rest IH]; [reflexivity |].
  cbn [Hex.EncodeToString all_chars].
  destruct (digit_lower_hex v) as [-> ->]. exact IH.
Qed.

Lemma overwrite_length (b rnd : list Byte.byte) : length (overwrite b rnd) = length b.
Proof.
  unfold overwrite. rewrite length_take, length_app, length_drop. lia.
Qed.

Lemma randomBytes_length (rnd : list Byte.byte) : length (randomBytes rnd) = 32%nat.
Proof.
  unfold randomBytes. rewrite overwrite_length. reflexivity.
Qed.

(** ** The handler *)

Lemma tmp_restored (m : gmap string (list Byte.byte)) (name : string) (x y : list Byte.byte) :
  m !! name = None -> delete name (<[name := x]> (<[name := y]> m)) = m.
Proof.
  intros H. rewrite !delete_insert_eq. apply delete_id. exact H.
Qed.

Lemma update_after_put_sound (tr : list Event) :
  forall seen, update_after_put seen tr = true ->
  forall before v done after,
    tr = (before ++ EUpdateVideo v done :: after)%list ->
    seen = true \/ exists bucket key, In (EPutObject bucket key true) before.
Proof.
  induction tr as [| e rest IH]; intros seen Hc before v done after Heq.
  - destruct before; discriminate.
  - destruct before as [| e' before']; simpl in Heq; injection Heq as -> ->.
    + simpl in Hc. apply andb_prop in Hc. left. tauto.
    + assert (Hrest : exists seen', update_after_put seen' (before' ++ EUpdateVideo v done :: after)%list = true
                        /\ (seen' = true -> seen = true \/ exists b k, e' = EPutObject b k true)).
      { destruct e'; simpl in Hc;
          try (exists seen; split; [exact Hc | tauto]).
        - destruct accepted.
          + exists true. split; [exact Hc | right; eauto].
          + exists seen. split; [exact Hc | tauto].
        - apply andb_prop in Hc. exists seen. split; tauto. }
      destruct Hrest as (seen' & Hc' & Hseen).
      destruct (IH seen' Hc' before' v done after eq_refl) as [Ht | (b & k & Hin)].
      * destruct (Hseen Ht) as [? | (b & k & ->)]; [left; assumption |].
        right. exists b, k. left. reflexivity.
      * right. exists b, k. right. exact Hin.
Qed.

(** Unfold one layer of the handler and its calls. *)
Ltac handler_simpl :=
  cbn -[Mime.ParseMediaType classifyStreams Hex.EncodeToString String.eqb String.append
        overwrite replicate aspectRatioPrefix getVideoAspectRatio ParseMultipartForm FormFile
        Header_Get N.eqb];
  unfold orFail, orFailErr, respondWithError, respondWithJSON, return_, defer, mbind, mret,
    Handler_bind, Handler_ret, GetVideo, CreateTemp, Copy, probe, Seek, Read, PutObject,
    UpdateVideo, closeUpload, closeAndRemove, emit, set_world;
  cbn -[Mime.ParseMediaType classifyStreams Hex.EncodeToString String.eqb String.append
        overwrite replicate aspectRatioPrefix getVideoAspectRatio ParseMultipartForm FormFile
        Header_Get N.eqb].

(** Decide the next branch of the handler: by a hypothesis on the answer
    when there is one, by cases on the answer otherwise. *)
Ltac handler_step :=
  match goal with
  | |- context [N.eqb ?a ?a] => rewrite N.eqb_refl
  | |- context [String.eqb ?a ?a] => rewrite String.eqb_refl
  | H : ?x = _ |- context [match ?x with _ => _ end] => rewrite H
  | |- context [match ?x with _ => _ end] =>
      lazymatch x with
      | context [match _ with _ => _ end] => fail
      | _ => destruct x eqn:?
      end
  end.

Ltac run_handler :=
  unfold serve, handlerUploadVideo; repeat (handler_simpl; try handler_step).

(** Split a list of events given in full before its last events. *)
Ltac split_suffix :=
  lazymatch goal with
  | |- exists before, ?l = (before ++ ?t)%list =>
      let rec go pre l :=
        first [ exists (rev pre); reflexivity
              | lazymatch l with
                | ?x :: ?l' => go (x :: pre) l'
                end ] in
      go (@nil Event) l
  end.

(** C8: whatever way the handler is left once the temporary file exists,
    the file is closed and removed by the time the handler returns: the last
    calls are the close and the remove of that file (then the close of the
    uploaded part), the file is absent, and the temporary directory holds
    what it held before the request. *)
Theorem C8_temp_file_removed (cfg : apiConfig) (env : Env) (r : Request) (w : World) :
  let s := serve cfg env r w in
  tmp (world s) = tmp w /\
  forall name,
    In (ECreateTemp name) (trace s) ->
    tmp w !! name = None /\
    tmp (world s) !! name = None /\
    exists before, trace s = (before ++ [ECloseTemp name; ERemove name; ECloseUpload])%list.
Proof.
  run_handler.
  all: split; [try reflexivity; apply tmp_restored; assumption |].
  all: intros name Hin; simpl in Hin.
  all: repeat (destruct Hin as [Hin | Hin]; [try discriminate |]); try contradiction.
  all: injection Hin as <-.
  all: split; [assumption |].
  all: split; [rewrite tmp_restored by assumption; assumption | split_suffix].
Qed.

Lemma C8_temp_file_removed_witness :
  let s := serve Sample.cfg (Sample.good_env [Sample.video_stream 1920 1080 EmptyString])
             (Sample.request "multipart/form-data" "video/mp4") Sample.world in
  tmp Sample.world !! Sample.tempName = None /\
  tmp (world s) !! Sample.tempName = None /\
  exists before,
    trace s = (before ++ [ECloseTemp Sample.tempName; ERemove Sample.tempName; ECloseUpload])%list.
Proof.
  apply (proj2 (C8_temp_file_removed Sample.cfg
                  (Sample.good_env [Sample.video_stream 1920 1080 EmptyString])
                  (Sample.request "multipart/form-data" "video/mp4") Sample.world)).
  vm_compute. tauto.
Defined.

(** Take the conditions of a stage apart. *)
Ltac open_stages :=
  unfold succeeds, keyed, classified, staged, part_found, authorized, declared_type in *;
  repeat match goal with
         | H : _ /\ _ |- _ => destruct H
         | H : exists _, _ |- _ => destruct H
         end;
  subst.

(** The run in which every step succeeds, in full. *)
Lemma serve_succeeds (cfg : apiConfig) (env : Env) (r : Request) (w : World)
    (videoID : UUID) (video : Video) (fh : FileHeader) (name label key : string) :
  succeeds cfg env r w videoID video fh name label key ->
  serve cfg env r w =
  {| world :=
       {| db := <[ID video := set_VideoURL video (videoURL cfg key)]> (db w);
          objects := <[(s3Bucket cfg, key) :=
                         {| Body := Content fh; ContentType := "video/mp4" |}]> (objects w);
          tmp := tmp w |};
     response :=
       Some {| StatusCode := StatusOK;
               Payload := [("message", "Video uploaded successfully");
                           ("video_url", videoURL cfg key)] |};
     trace :=
       [EGetVideo videoID; ECreateTemp name; ECopy name; EProbe name; ESeek name; ERandRead;
        EPutObject (s3Bucket cfg) key true;
        EUpdateVideo (set_VideoURL video (videoURL cfg key)) true;
        ERespond StatusOK; ECloseTemp name; ERemove name; ECloseUpload] |}.
Proof.
  intros H. open_stages. unfold randomBytes in *.
  run_handler.
  rewrite lookup_insert_eq. cbn. rewrite tmp_restored by assumption.
  reflexivity.
Qed.

(** A response with status 200 is the response of a run in which every step
    succeeds. *)
Lemma serve_ok_inv (cfg : apiConfig) (env : Env) (r : Request) (w : World) :
  status (serve cfg env r w) = Some StatusOK ->
  exists videoID video fh name label key,
    succeeds cfg env r w videoID video fh name label key.
Proof.
  unfold status. run_handler; try discriminate. intros _.
  repeat match goal with
         | H : negb _ = false |- _ => apply negb_false_iff in H
         end.
  match goal with H : (_ =? _)%N = true |- _ => apply N.eqb_eq in H end.
  match goal with H : (_ =? _)%string = true |- _ => apply String.eqb_eq in H end.
  subst.
  do 6 eexists. unfold succeeds, keyed, classified, staged, part_found, authorized, declared_type.
  repeat match goal with
         | |- _ /\ _ => split
         | |- exists _, _ => eexists
         end; try eassumption; try reflexivity.
Qed.

Lemma aspectRatioPrefix_cases (label : string) :
  (label = "16:9" \/ label = "4:3" -> aspectRatioPrefix label = "landscape") /\
  (label = "9:16" \/ label = "3:4" -> aspectRatioPrefix label = "portrait") /\
  (label <> "16:9" -> label <> "4:3" -> label <> "9:16" -> label <> "3:4" ->
   aspectRatioPrefix label = "other").
Proof.
  split; [| split].
  - intros [-> | ->]; reflexivity.
  - intros [-> | ->]; reflexivity.
  - intros H1 H2 H3 H4. unfold aspectRatioPrefix.
    apply String.eqb_neq in H1, H2, H3, H4. rewrite H1, H2, H3, H4. reflexivity.
Qed.

(** C3: the [video_url] of a success response is
    [https://<bucket>.s3.<region>.amazonaws.com/videos/<p>/<t>.mp4], where
    [t] is the lowercase hexadecimal text, 64 characters long, of the 32
    bytes the random source wrote, and [p] is "landscape" for the labels
    "16:9" and "4:3", "portrait" for "9:16" and "3:4", "other" for every
    other label of the classifier. *)
Theorem C3_success_url (cfg : apiConfig) (env : Env) (r : Request) (w : World) :
  status (serve cfg env r w) = Some StatusOK ->
  exists (name label : string) (rnd : list Byte.byte),
    getVideoAspectRatio env name = Ok label /\
    crand_Read env = Ok rnd /\
    let t := Hex.EncodeToString (randomBytes rnd) in
    let p := aspectRatioPrefix label in
    response (serve cfg env r w) =
      Some {| StatusCode := StatusOK;
              Payload :=
                [("message", "Video uploaded successfully");
                 ("video_url",
                  "https://" ++ s3Bucket cfg ++ ".s3." ++ s3Region cfg
                    ++ ".amazonaws.com/videos/" ++ p ++ "/" ++ t ++ ".mp4")] |} /\
    length (randomBytes rnd) = 32%nat /\
    String.length t = 64%nat /\
    all_chars Hex.is_lower_hex t = true /\
    (label = "16:9" \/ label = "4:3" -> p = "landscape") /\
    (label = "9:16" \/ label = "3:4" -> p = "portrait") /\
    (label <> "16:9" -> label <> "4:3" -> label <> "9:16" -> label <> "3:4" -> p = "other").
Proof.
  intros Hok.
  destruct (serve_ok_inv cfg env r w Hok) as (videoID & video & fh & name & label & key & Hs).
  rewrite (serve_succeeds cfg env r w videoID video fh name label key Hs).
  destruct Hs as ((Hclass & _ & rnd & Hrnd & ->) & _ & _).
  destruct Hclass as (_ & _ & Hlabel).
  exists name, label, rnd.
  split; [exact Hlabel | split; [exact Hrnd |]].
  cbv zeta.
  split; [reflexivity |].
  split; [apply randomBytes_length |].
  split; [rewrite EncodeToString_length, randomBytes_length; reflexivity |].
  split; [apply EncodeToString_lower_hex |].
  apply aspectRatioPrefix_cases.
Qed.

Lemma C3_success_url_witness :
  response (serve Sample.cfg (Sample.good_env [Sample.video_stream 1080 1920 EmptyString])
              (Sample.request "multipart/form-data" "video/mp4") Sample.world) =
  Some {| StatusCode := StatusOK;
          Payload :=
            [("message", "Video uploaded successfully");
             ("video_url",
              "https://tubely.s3.us-east-2.amazonaws.com/videos/portrait/"
                ++ Sample.hex_ab ++ ".mp4")] |}.
Proof.
  destruct (C3_success_url Sample.cfg
              (Sample.good_env [Sample.video_stream 1080 1920 EmptyString])
              (Sample.request "multipart/form-data" "video/mp4") Sample.world)
    as (name & label & rnd & _ & _ & _).
  - vm_compute. reflexivity.
  - vm_compute. reflexivity.
Defined.

(** C7, as stated, fails: a request without a credential and a request with
    an invalid one fail with two kinds and are answered with one status,
    401. *)
Lemma C7_two_kinds_one_status :
  let missing := Sample.env (Err "no auth header included in request") (Ok Sample.owner)
                   [] None None in
  let invalid := Sample.env (Ok "token") (Err "token is expired") [] None None in
  let r := Sample.request "multipart/form-data" "video/mp4" in
  fails Sample.cfg missing r Sample.world MissingCredential /\
  fails Sample.cfg invalid r Sample.world InvalidCredential /\
  MissingCredential <> InvalidCredential /\
  status (serve Sample.cfg missing r Sample.world)
  = status (serve Sample.cfg invalid r Sample.world).
Proof.
  cbv zeta. split; [| split; [| split]].
  - eapply fails_missing_credential; reflexivity.
  - eapply fails_invalid_credential; reflexivity.
  - discriminate.
  - vm_compute. reflexivity.
Qed.

(** C7, amended: every failure kind is answered with one status, fixed by
    the kind, among 400, 401, 403, 404 and 500, and several kinds share a
    status: 400 for a bad identifier, a missing file part and an unsupported
    media type; 401 for a missing and for an invalid credential; 500 for a
    malformed form, a local I/O failure, a probe failure, a remote upload
    failure and a record update failure. A caller who is not the owner gets
    403, which differs from the 404 of a record that does not exist. *)
Theorem C7_status_by_failure_kind
    (cfg : apiConfig) (env : Env) (r : Request) (w : World) (k : Failure) :
  fails cfg env r w k ->
  status (serve cfg env r w) = Some (failure_status k) /\
  In (failure_status k) [400; 401; 403; 404; 500] /\
  failure_status Forbidden = 403 /\
  failure_status NotFound = 404 /\
  failure_status Forbidden <> failure_status NotFound.
Proof.
  intros H. split; [| split; [| repeat split; discriminate]].
  - unfold status.
    destruct H; open_stages; unfold randomBytes in *.
    all: try match goal with
             | H : UserID _ <> _ |- _ => apply N.eqb_neq in H
             end.
    all: run_handler; try reflexivity; try discriminate; try congruence.
    all: repeat match goal with
                | H : negb _ = false |- _ => apply negb_false_iff in H
                | H : negb _ = true |- _ => apply negb_true_iff in H
                | H : (_ =? _)%string = true |- _ => apply String.eqb_eq in H
                end; subst; try congruence.
  - destruct k; simpl; tauto.
Qed.

Lemma C7_status_by_failure_kind_witness :
  let env := Sample.env (Ok "token") (Ok 8%N) [] None None in
  let r := Sample.request "multipart/form-data" "video/mp4" in
  status (serve Sample.cfg env r Sample.world) = Some 403.
Proof.
  cbv zeta.
  refine (proj1 (C7_status_by_failure_kind Sample.cfg _ _ Sample.world Forbidden _)).
  eapply fails_forbidden; try reflexivity. discriminate.
Defined.

(** Settle the membership of an event in a trace given in full. *)
Ltac in_trace :=
  repeat match goal with
         | H : In _ (_ :: _) |- _ => simpl in H
         | H : _ \/ _ |- _ => destruct H
         | H : False |- _ => contradiction
         | H : @eq Event _ _ |- _ => first [discriminate H | injection H as ? ? ?
                                            | injection H as ? ? | injection H as ?]
         end; subst.

(** C2, as stated, fails: the object store accepts the upload, the record
    store then refuses the update, and the URL of the record is not
    updated. *)
Lemma C2_stored_but_not_updated :
  let env := Sample.env (Ok "token") (Ok Sample.owner)
               [Sample.video_stream 1920 1080 EmptyString] None (Some "database is locked") in
  let s := serve Sample.cfg env (Sample.request "multipart/form-data" "video/mp4")
             Sample.world in
  ~ (record_updated s <-> upload_accepted s).
Proof.
  cbv zeta. intros [_ H].
  destruct H as [v Hin].
  - exists "tubely", ("videos/landscape/" ++ Sample.hex_ab ++ ".mp4").
    vm_compute. tauto.
  - vm_compute in Hin. in_trace.
Qed.

Lemma world_eta (w : World) : {| db := db w; objects := objects w; tmp := tmp w |} = w.
Proof. destruct w; reflexivity. Qed.

(** C2, amended: the handler asks for the update of the URL if and only if
    the object store accepted the upload, and the URL of the record is
    updated only if it did; the converse holds unless the record store
    refuses the update, which is answered with status 500 and leaves the
    stored object without a record. The UpdateVideo call comes strictly
    after an accepted PutObject; a request that fails before PutObject is
    accepted leaves the record store, the object store and the temporary
    directory as they were; and the URL written is the address of the
    object stored under the key of that PutObject. *)
Theorem C2_url_only_after_upload (cfg : apiConfig) (env : Env) (r : Request) (w : World) :
  let s := serve cfg env r w in
  (update_requested s <-> upload_accepted s) /\
  (record_updated s -> upload_accepted s) /\
  (forall before v done after,
      trace s = (before ++ EUpdateVideo v done :: after)%list ->
      exists bucket key, In (EPutObject bucket key true) before) /\
  (~ upload_accepted s -> world s = w) /\
  (~ record_updated s -> db (world s) = db w) /\
  (forall v, In (EUpdateVideo v true) (trace s) ->
     exists key,
       VideoURL v = Some (videoURL cfg key) /\
       In (EPutObject (s3Bucket cfg) key true) (trace s) /\
       is_Some (objects (world s) !! (s3Bucket cfg, key)) /\
       db (world s) = <[ID v := v]> (db w)) /\
  (upload_accepted s -> ~ record_updated s -> status s = Some StatusInternalServerError).
Proof.
  cbv zeta.
  split; [| split; [| split; [| split; [| split; [| split]]]]].
  - unfold update_requested, upload_accepted. run_handler.
    all: split; [intros (u & ok & Hin) | intros (b & k & Hin)]; in_trace.
    all: try (eexists _, _; simpl; tauto).
  - unfold record_updated, upload_accepted. run_handler.
    all: intros [u Hin]; in_trace.
    eexists _, _. simpl. tauto.
  - intros before v done after Heq.
    assert (Hc : update_after_put false (trace (serve cfg env r w)) = true).
    { clear Heq. run_handler; reflexivity. }
    destruct (update_after_put_sound _ false Hc before v done after Heq) as [? | ?];
      [discriminate | assumption].
  - unfold upload_accepted. run_handler.
    all: intros Hno; rewrite ?tmp_restored by assumption; rewrite ?world_eta; try reflexivity.
    all: exfalso; apply Hno; eexists _, _; simpl; tauto.
  - unfold record_updated. run_handler.
    all: intros Hno; try reflexivity.
    exfalso; apply Hno; eexists; simpl; tauto.
  - run_handler.
    all: intros u Hin; in_trace.
    eexists. split; [reflexivity |]. split; [simpl; tauto |].
    split; [| reflexivity].
    rewrite lookup_insert_eq. eexists; reflexivity.
  - unfold upload_accepted, record_updated, status. run_handler.
    all: intros (b & k & Hin) Hno; try reflexivity; in_trace.
    exfalso; apply Hno; eexists; simpl; tauto.
Qed.

Lemma C2_url_only_after_upload_witness :
  let s := serve Sample.cfg (Sample.good_env [Sample.video_stream 1920 1080 EmptyString])
             (Sample.request "multipart/form-data" "video/mp4") Sample.world in
  upload_accepted s.
Proof.
  cbv zeta.
  apply (proj1 (proj2 (C2_url_only_after_upload Sample.cfg
                  (Sample.good_env [Sample.video_stream 1920 1080 EmptyString])
                  (Sample.request "multipart/form-data" "video/mp4") Sample.world))).
  eexists. vm_compute. do 7 right. left. reflexivity.
Defined.






(** ** Rounding: [float64] conversion, division and order

    What follows bounds the error of [float64(w) / float64(h)]: each of the
    two conversions and the division is within one unit in the last place
    of the exact result, which is all the bands need. *)

Lemma digits2_pos_bounds (p : positive) :
  2 ^ (Zpos (digits2_pos p) - 1) <= Zpos p < 2 ^ Zpos (digits2_pos p).
Proof.
  induction p as [p IH | p IH |]; cbn [digits2_pos].
  - rewrite Pos2Z.inj_succ.
    replace (Z.succ (Zpos (digits2_pos p)) - 1) with (Z.succ (Zpos (digits2_pos p) - 1)) by lia.
    rewrite !Z.pow_succ_r by lia. lia.
  - rewrite Pos2Z.inj_succ.
    replace (Z.succ (Zpos (digits2_pos p)) - 1) with (Z.succ (Zpos (digits2_pos p) - 1)) by lia.
    rewrite !Z.pow_succ_r by lia. lia.
  - simpl. lia.
Qed.

Lemma Zdigits2_unique (m k : Z) :
  0 < k -> 2 ^ (k - 1) <= m < 2 ^ k -> Zdigits2 m = k.
Proof.
  intros Hk [Hlo Hhi].
  assert (0 < m) by (pose proof (Z.pow_pos_nonneg 2 (k - 1)); lia).
  destruct m as [| p |]; try lia. simpl.
  pose proof (digits2_pos_bounds p) as [Hl Hh].
  set (d := Zpos (digits2_pos p)) in *.
  assert (Hd : 0 < d) by (unfold d; lia).
  destruct (Z.lt_trichotomy d k) as [Hlt | [Heq | Hgt]]; [| exact Heq |].
  - assert (2 ^ d <= 2 ^ (k - 1)) by (apply Z.pow_le_mono_r; lia). lia.
  - assert (2 ^ k <= 2 ^ (d - 1)) by (apply Z.pow_le_mono_r; lia). lia.
Qed.

Lemma shr_1_m (mrs : shr_record) :
  0 <= shr_m mrs -> shr_m (shr_1 mrs) = shr_m mrs / 2.
Proof.
  destruct mrs as [m r s]. cbn [shr_m]. intros Hm.
  destruct m as [| [p | p |] | p]; cbn [shr_1 shr_m]; try lia.
  - reflexivity.
  - apply Z.div_unique with 1; lia.
  - apply Z.div_unique with 0; lia.
  - reflexivity.
Qed.

Lemma iter_shr_1_m (n : positive) :
  forall mrs, 0 <= shr_m mrs ->
  shr_m (SpecFloat.iter_pos shr_1 n mrs) = shr_m mrs / 2 ^ Zpos n.
Proof.
  induction n as [n IH | n IH |]; intros mrs Hm; cbn [SpecFloat.iter_pos].
  - assert (H1 : 0 <= shr_m (shr_1 mrs)) by (rewrite shr_1_m by lia; apply Z.div_pos; lia).
    assert (H2 : 0 <= shr_m (SpecFloat.iter_pos shr_1 n (shr_1 mrs)))
      by (rewrite IH by lia; apply Z.div_pos; [lia | apply Z.pow_pos_nonneg; lia]).
    rewrite IH, IH, shr_1_m by lia.
    rewrite !Z.div_div by (try apply Z.pow_pos_nonneg; lia).
    f_equal. change 2 with (2 ^ 1) at 1.
    rewrite <- !Z.pow_add_r by lia. f_equal. lia.
  - assert (H2 : 0 <= shr_m (SpecFloat.iter_pos shr_1 n mrs))
      by (rewrite IH by lia; apply Z.div_pos; [lia | apply Z.pow_pos_nonneg; lia]).
    rewrite IH, IH by lia.
    rewrite !Z.div_div by (try apply Z.pow_pos_nonneg; lia).
    f_equal. rewrite <- !Z.pow_add_r by lia. f_equal. lia.
  - rewrite shr_1_m by lia. reflexivity.
Qed.

Lemma shr_record_of_loc_m (m : Z) (l : location) : shr_m (shr_record_of_loc m l) = m.
Proof. destruct l as [| []]; reflexivity. Qed.

Lemma round_nearest_even_bounds (m : Z) (l : location) :
  m <= round_nearest_even m l <= m + 1.
Proof.
  destruct l as [| []]; cbn [round_nearest_even]; try lia.
  destruct (Z.even m); lia.
Qed.

(** The first step of rounding: the mantissa is cut down to 53 bits. *)
Lemma shr_fexp_m (mx ex : Z) (lx : location) (d : Z) :
  2 ^ (d - 1) <= mx < 2 ^ d -> 53 <= d -> -1074 <= ex + d - 53 ->
  exists mrs,
    shr_fexp 53 1024 mx ex lx = (mrs, ex + d - 53) /\
    shr_m mrs = mx / 2 ^ (d - 53).
Proof.
  intros Hmx Hd He.
  unfold shr_fexp. rewrite (Zdigits2_unique mx d) by lia.
  unfold fexp, emin. rewrite Z.max_l by lia.
  replace (d + ex - 53 - ex) with (d - 53) by lia.
  unfold shr.
  destruct (d - 53) as [| n | n] eqn:Hn; try lia.
  - exists (shr_record_of_loc mx lx). split; [f_equal; lia |].
    rewrite shr_record_of_loc_m. change (2 ^ 0) with 1. symmetry. apply Z.div_1_r.
  - exists (SpecFloat.iter_pos shr_1 n (shr_record_of_loc mx lx)). split; [f_equal; lia |].
    rewrite iter_shr_1_m; rewrite shr_record_of_loc_m; [reflexivity |].
    pose proof (Z.pow_pos_nonneg 2 (d - 1)). lia.
Qed.

(** Rounding to nearest is faithful: from a mantissa [mx] of [d >= 53] bits
    at exponent [ex], with the exact value in [mx, mx + 1), the result has a
    mantissa [m] of 53 bits at an exponent [e] with both the result and the
    exact value between [(m - 1) 2^e] and [(m + 1) 2^e]. *)
Lemma binary_round_aux_faithful (sx : bool) (mx ex : Z) (lx : location) (d : Z) :
  2 ^ (d - 1) <= mx < 2 ^ d -> 53 <= d -> -1074 <= ex + d - 53 -> ex + d - 53 < 971 ->
  exists m e,
    binary_round_aux 53 1024 sx mx ex lx = S754_finite sx m e /\
    2 ^ 52 <= Zpos m < 2 ^ 53 /\
    ex + d - 53 <= e <= ex + d - 52 /\
    (Zpos m - 1) * 2 ^ (e - ex) <= mx /\
    mx + 1 <= (Zpos m + 1) * 2 ^ (e - ex).
Proof.
  intros Hmx Hd Hlo Hhi.
  unfold binary_round_aux.
  destruct (shr_fexp_m mx ex lx d Hmx Hd Hlo) as (mrs & -> & Hm1).
  set (n := d - 53) in *. set (e1 := ex + d - 53) in *.
  set (m1 := shr_m mrs) in *.
  assert (Hn : 0 <= n) by (unfold n; lia).
  assert (Hpn : 0 < 2 ^ n) by (apply Z.pow_pos_nonneg; lia).
  assert (Hsplit : 2 ^ d = 2 ^ 53 * 2 ^ n /\ 2 ^ (d - 1) = 2 ^ 52 * 2 ^ n).
  { split; rewrite <- Z.pow_add_r by lia; f_equal; unfold n; lia. }
  destruct Hsplit as [Hd53 Hd52].
  assert (Hdiv : m1 * 2 ^ n <= mx < (m1 + 1) * 2 ^ n).
  { rewrite Hm1. pose proof (Z.div_mod mx (2 ^ n)). pose proof (Z.mod_pos_bound mx (2 ^ n)). nia. }
  assert (Hm1b : 2 ^ 52 <= m1 < 2 ^ 53) by nia.
  pose proof (round_nearest_even_bounds m1 (loc_of_shr_record mrs)) as Hr.
  set (m2 := round_nearest_even m1 (loc_of_shr_record mrs)) in *.
  destruct (Z.eq_dec m2 (2 ^ 53)) as [Hcarry | Hnc].
  - destruct (shr_fexp_m m2 e1 loc_Exact 54) as (mrs2 & -> & Hm2); try lia.
    cbv beta iota.  rewrite Hm2, Hcarry. change (2 ^ 53 / 2 ^ (54 - 53)) with (Z.pos (2 ^ 52)).
    cbv iota.
    replace (e1 + 54 - 53 <=? 1024 - 53) with true by (symmetry; apply Z.leb_le; lia).
    exists (2 ^ 52)%positive, (e1 + 54 - 53).
    split; [reflexivity |].
    split; [change (Z.pos (2 ^ 52)) with (2 ^ 52); lia |].
    split; [unfold e1; lia |].
    replace (e1 + 54 - 53 - ex) with (1 + n) by (unfold e1, n; lia).
    rewrite Z.pow_add_r by lia. change (2 ^ 1) with 2.
    change (Z.pos (2 ^ 52)) with (2 ^ 52).
    assert (m1 = 2 ^ 53 - 1) by lia. nia.
  - destruct (shr_fexp_m m2 e1 loc_Exact 53) as (mrs2 & -> & Hm2); try lia.
    cbv beta iota. rewrite Hm2. change (2 ^ (53 - 53)) with 1. rewrite Z.div_1_r.
    destruct m2 as [| p |] eqn:Hp; try lia.
    replace (e1 + 53 - 53 <=? 1024 - 53) with true by (symmetry; apply Z.leb_le; lia).
    exists p, (e1 + 53 - 53).
    split; [reflexivity |].
    split; [lia |].
    split; [unfold e1; lia |].
    replace (e1 + 53 - 53 - ex) with n by (unfold e1, n; lia).
    nia.
Qed.

Lemma iter_xO_pow (p k : positive) : Zpos (Pos.iter xO p k) = Zpos p * 2 ^ Zpos k.
Proof.
  induction k as [| k IH] using Pos.peano_ind.
  - simpl. lia.
  - rewrite Pos.iter_succ, Pos2Z.inj_xO, IH, Pos2Z.inj_succ, Z.pow_succ_r by lia. lia.
Qed.

(** A bracket of width two units in the last place around [X], turned into
    a relative one on the value [m * s]. *)
Lemma relative_of_bracket (T m s X : Z) :
  0 < T -> T <= m -> 0 < s ->
  (m - 1) * s <= X <= (m + 1) * s ->
  (m * s) * (T - 1) <= X * T /\ X * T <= (m * s) * (T + 1).
Proof.
  intros HT Hm Hs [Hlo Hhi]. split; nia.
Qed.

(** [float64(p)] for a positive [int]: a 53-bit mantissa [m] at an exponent
    [e] from -52 to 11, within one unit in the last place of [p]. *)
Lemma of_int_faithful (p : Z) :
  1 <= p < 2 ^ 63 ->
  exists m e,
    binary_normalize 53 1024 p 0 false = S754_finite false m e /\
    2 ^ 52 <= Zpos m < 2 ^ 53 /\
    -52 <= e <= 11 /\
    (Zpos m - 1) * 2 ^ (e + 52) <= p * 2 ^ 52 <= (Zpos m + 1) * 2 ^ (e + 52).
Proof.
  intros Hp. destruct p as [| p |]; try lia.
  cbn [binary_normalize]. unfold binary_round.
  pose proof (digits2_pos_bounds p) as Hd.
  set (d := Zpos (digits2_pos p)) in *.
  assert (Hd1 : 1 <= d) by (unfold d; lia).
  assert (Hd63 : d <= 63).
  { destruct (Z.le_gt_cases d 63) as [H | H]; [exact H |].
    assert (2 ^ 63 <= 2 ^ (d - 1)) by (apply Z.pow_le_mono_r; lia). lia. }
  unfold fexp, emin. rewrite Z.max_l by lia.
  unfold shl_align. replace (d + 0 - 53 - 0) with (d - 53) by lia.
  destruct (d - 53) as [| k | k] eqn:Hk.
  - destruct (binary_round_aux_faithful false (Zpos p) 0 loc_Exact d)
      as (m & e & -> & Hm & He & Hlo & Hhi); try lia.
    exists m, e. split; [reflexivity |]. split; [exact Hm |]. split; [lia |].
    rewrite Z.sub_0_r in Hlo, Hhi.
    rewrite Z.pow_add_r by lia.
    assert (HE : 0 < 2 ^ e) by (apply Z.pow_pos_nonneg; lia).
    assert (HT : 0 < 2 ^ 52) by reflexivity.
    revert Hlo Hhi HE HT. generalize (2 ^ e) (2 ^ 52) (Zpos m) (Zpos p). clear.
    intros E T m p Hlo Hhi HE HT. split; nia.
  - destruct (binary_round_aux_faithful false (Zpos p) 0 loc_Exact d)
      as (m & e & -> & Hm & He & Hlo & Hhi); try lia.
    exists m, e. split; [reflexivity |]. split; [exact Hm |]. split; [lia |].
    rewrite Z.sub_0_r in Hlo, Hhi.
    rewrite Z.pow_add_r by lia.
    assert (HE : 0 < 2 ^ e) by (apply Z.pow_pos_nonneg; lia).
    assert (HT : 0 < 2 ^ 52) by reflexivity.
    revert Hlo Hhi HE HT. generalize (2 ^ e) (2 ^ 52) (Zpos m) (Zpos p). clear.
    intros E T m p Hlo Hhi HE HT. split; nia.
  - assert (Hkd : Zpos k = 53 - d) by lia.
    assert (Hpk : 2 ^ 52 <= Zpos p * 2 ^ Zpos k < 2 ^ 53).
    { assert (H52 : 2 ^ 52 = 2 ^ (d - 1) * 2 ^ Zpos k)
        by (rewrite <- Z.pow_add_r by lia; f_equal; lia).
      assert (H53 : 2 ^ 53 = 2 ^ d * 2 ^ Zpos k)
        by (rewrite <- Z.pow_add_r by lia; f_equal; lia).
      assert (0 < 2 ^ Zpos k) by (apply Z.pow_pos_nonneg; lia).
      rewrite H52, H53. nia. }
    destruct (binary_round_aux_faithful false (Zpos (Pos.iter xO p k)) (d + 0 - 53) loc_Exact 53)
      as (m & e & -> & Hm & He & Hlo & Hhi); rewrite ?iter_xO_pow; try lia.
    exists m, e. split; [reflexivity |]. split; [exact Hm |]. split; [lia |].
    rewrite iter_xO_pow in Hlo, Hhi.
    replace (e - (d + 0 - 53)) with (e + Zpos k) in Hlo, Hhi by lia.
    replace (e + 52) with (e + Zpos k + (d - 1)) by lia.
    replace (2 ^ 52) with (2 ^ Zpos k * 2 ^ (d - 1))
      by (rewrite <- Z.pow_add_r by lia; f_equal; lia).
    rewrite (Z.pow_add_r 2 (e + Zpos k)) by lia.
    assert (HD : 0 < 2 ^ (d - 1)) by (apply Z.pow_pos_nonneg; lia).
    revert Hlo Hhi HD.
    generalize (2 ^ (e + Zpos k)) (2 ^ (d - 1)) (2 ^ Zpos k) (Zpos m) (Zpos p). clear.
    intros E D K m p Hlo Hhi HD. split; nia.
Qed.

(** The quotient of two positive floats with 53-bit mantissas: a 53-bit
    mantissa again, within one unit in the last place of the exact
    quotient. *)
Lemma div_faithful (mx my : positive) (ex ey : Z) :
  2 ^ 52 <= Zpos mx < 2 ^ 53 -> 2 ^ 52 <= Zpos my < 2 ^ 53 ->
  -52 <= ex <= 11 -> -52 <= ey <= 11 ->
  exists m e,
    SFdiv 53 1024 (S754_finite false mx ex) (S754_finite false my ey) = S754_finite false m e /\
    2 ^ 52 <= Zpos m < 2 ^ 53 /\
    ex - ey - 53 <= e <= ex - ey - 51 /\
    (Zpos m - 1) * 2 ^ (e - (ex - ey - 53)) * Zpos my <= Zpos mx * 2 ^ 53 /\
    Zpos mx * 2 ^ 53 < (Zpos m + 1) * 2 ^ (e - (ex - ey - 53)) * Zpos my.
Proof.
  intros Hmx Hmy Hex Hey.
  cbn [SFdiv xorb]. unfold SFdiv_core_binary.
  rewrite (Zdigits2_unique (Zpos mx) 53), (Zdigits2_unique (Zpos my) 53) by lia.
  unfold fexp, emin. rewrite Z.max_l, Z.min_l by lia.
  replace (53 + ex - (53 + ey) - 53) with (ex - ey - 53) by lia.
  replace (ex - ey - (ex - ey - 53)) with 53 by lia.
  cbv iota. rewrite Z.shiftl_mul_pow2 by lia.
  pose proof (Z_div_mod (Zpos mx * 2 ^ 53) (Zpos my) eq_refl) as Hdm.
  destruct (Z.div_eucl (Zpos mx * 2 ^ 53) (Zpos my)) as [q r].
  destruct Hdm as [Hq Hr].
  assert (Hqb : 2 ^ 52 <= q < 2 ^ 54).
  { change (2 ^ 54) with (2 * 2 ^ 53). change (2 ^ 53) with (2 * 2 ^ 52) in *.
    revert Hmx Hmy Hq Hr. generalize (2 ^ 52) (Zpos mx) (Zpos my). clear.
    intros T mx my Hmx Hmy Hq Hr. split; nia. }
  assert (Hd : exists d, (d = 53 \/ d = 54) /\ 2 ^ (d - 1) <= q < 2 ^ d).
  { destruct (Z.lt_ge_cases q (2 ^ 53)); [exists 53 | exists 54]; (split; [tauto | simpl; lia]). }
  destruct Hd as (d & Hd & Hqd).
  destruct (binary_round_aux_faithful false q (ex - ey - 53) (new_location (Zpos my) r) d)
    as (m & e & -> & Hm & He & Hlo & Hhi); try lia.
  exists m, e. split; [reflexivity |]. split; [exact Hm |]. split; [lia |].
  assert (Ht : 0 < 2 ^ (e - (ex - ey - 53))) by (apply Z.pow_pos_nonneg; lia).
  revert Hlo Hhi Ht Hq Hr.
  generalize (2 ^ (e - (ex - ey - 53))) (Zpos mx * 2 ^ 53) (Zpos m) (Zpos my). clear.
  intros t X m my Hlo Hhi Ht Hq Hr. split; nia.
Qed.

(** The order of two positive floats with 53-bit mantissas is the order of
    their values; [K] brings both exponents above zero. *)
Lemma SFltb_normal (m1 m2 : positive) (e1 e2 K : Z) :
  2 ^ 52 <= Zpos m1 < 2 ^ 53 -> 2 ^ 52 <= Zpos m2 < 2 ^ 53 ->
  0 <= e1 + K -> 0 <= e2 + K ->
  SFltb (S754_finite false m1 e1) (S754_finite false m2 e2) = true <->
  Zpos m1 * 2 ^ (e1 + K) < Zpos m2 * 2 ^ (e2 + K).
Proof.
  intros H1 H2 HK1 HK2. unfold SFltb, SFcompare.
  assert (Hp1 : 0 < 2 ^ (e1 + K)) by (apply Z.pow_pos_nonneg; lia).
  assert (Hp2 : 0 < 2 ^ (e2 + K)) by (apply Z.pow_pos_nonneg; lia).
  change (2 ^ 53) with (2 * 2 ^ 52) in *.
  destruct (Z.compare_spec e1 e2) as [Heq | Hlt | Hgt].
  - subst e2. rewrite Pos.compare_cont_spec. cbn [Pos.switch_Eq].
    change (Pos.compare m1 m2) with (Z.compare (Zpos m1) (Zpos m2)).
    destruct (Z.compare_spec (Zpos m1) (Zpos m2)); split; intros; try discriminate; try reflexivity; nia.
  - split; [intros _ | reflexivity].
    replace (e2 + K) with (e2 - e1 - 1 + 1 + (e1 + K)) by lia.
    rewrite (Z.pow_add_r 2 (e2 - e1 - 1 + 1) (e1 + K)), (Z.pow_add_r 2 (e2 - e1 - 1) 1) by lia.
    change (2 ^ 1) with 2.
    assert (0 < 2 ^ (e2 - e1 - 1)) by (apply Z.pow_pos_nonneg; lia).
    revert H1 H2 Hp1 H. generalize (2 ^ 52) (2 ^ (e1 + K)) (2 ^ (e2 - e1 - 1)) (Zpos m1) (Zpos m2).
    clear. intros T P D a b Ha Hb HP HD.
    assert (T <= b * D) by nia.
    assert (a * P < 2 * T * P) by nia.
    assert (2 * T * P <= b * D * 2 * P) by nia.
    lia.
  - split; [discriminate | intros Hc; exfalso].
    replace (e1 + K) with (e1 - e2 - 1 + 1 + (e2 + K)) in Hc by lia.
    rewrite (Z.pow_add_r 2 (e1 - e2 - 1 + 1) (e2 + K)), (Z.pow_add_r 2 (e1 - e2 - 1) 1) in Hc by lia.
    change (2 ^ 1) with 2 in Hc.
    assert (0 < 2 ^ (e1 - e2 - 1)) by (apply Z.pow_pos_nonneg; lia).
    revert H1 H2 Hp2 H Hc. generalize (2 ^ 52) (2 ^ (e2 + K)) (2 ^ (e1 - e2 - 1)) (Zpos m1) (Zpos m2).
    clear. intros T P D a b Ha Hb HP HD Hc.
    assert (T <= a * D) by nia.
    assert (b * P < 2 * T * P) by nia.
    assert (2 * T * P <= a * D * 2 * P) by nia.
    lia.
Qed.

(** From the three relative brackets (numerator, denominator, quotient) to
    a bracket of the rounded quotient [C] around [w / h]. *)
Lemma ratio_chain (T G w h A B C : Z) :
  1 < T -> 0 < G -> 0 < w -> 0 < h -> 0 <= A -> 0 <= B -> 0 <= C ->
  A * (T - 1) <= w * T * T <= A * (T + 1) ->
  B * (T - 1) <= h * T * T <= B * (T + 1) ->
  C * B * (T - 1) <= A * T * G < C * B * (T + 1) ->
  w * T * G * (T - 1) < C * h * ((T + 1) * (T + 1)) /\
  C * h * ((T - 1) * (T - 1)) <= w * T * G * (T + 1).
Proof.
  intros HT HG Hw Hh HA HB HC [HA1 HA2] [HB1 HB2] [HC1 HC2].
  assert (HTT : 0 < T * T) by nia.
  split.
  - apply (Z.mul_lt_mono_pos_l (T * T)); [exact HTT |].
    assert (S1 : (w * T * T) * (T * G * (T - 1)) <= (A * (T + 1)) * (T * G * (T - 1)))
      by (apply Z.mul_le_mono_nonneg_r; [nia | exact HA2]).
    assert (S2 : (A * T * G) * ((T + 1) * (T - 1)) < (C * B * (T + 1)) * ((T + 1) * (T - 1)))
      by (apply Z.mul_lt_mono_pos_r; [nia | exact HC2]).
    assert (S3 : (C * ((T + 1) * (T + 1))) * (B * (T - 1)) <= (C * ((T + 1) * (T + 1))) * (h * T * T))
      by (apply Z.mul_le_mono_nonneg_l; [nia | exact HB1]).
    lia.
  - apply (Z.mul_le_mono_pos_l _ _ (T * T)); [exact HTT |].
    assert (S1 : (C * ((T - 1) * (T - 1))) * (h * T * T) <= (C * ((T - 1) * (T - 1))) * (B * (T + 1)))
      by (apply Z.mul_le_mono_nonneg_l; [nia | exact HB2]).
    assert (S2 : (C * B * (T - 1)) * ((T - 1) * (T + 1)) <= (A * T * G) * ((T - 1) * (T + 1)))
      by (apply Z.mul_le_mono_nonneg_r; [nia | exact HC1]).
    assert (S3 : (A * (T - 1)) * (T * G * (T + 1)) <= (w * T * T) * (T * G * (T + 1)))
      by (apply Z.mul_le_mono_nonneg_r; [nia | exact HA1]).
    lia.
Qed.

(** [float64(w) / float64(h)] for positive [int]s: a positive float with a
    53-bit mantissa whose value [C / 2^116] is within a relative [2^-50] or
    so of [w / h]. *)
Lemma ratio_faithful (w h : Z) :
  1 <= w < 2 ^ 63 -> 1 <= h < 2 ^ 63 ->
  exists m e,
    ratio w h = S754_finite false m e /\
    2 ^ 52 <= Zpos m < 2 ^ 53 /\
    -116 <= e <= 12 /\
    w * 2 ^ 52 * 2 ^ 116 * (2 ^ 52 - 1)
      < Float64.scaled (ratio w h) * h * ((2 ^ 52 + 1) * (2 ^ 52 + 1)) /\
    Float64.scaled (ratio w h) * h * ((2 ^ 52 - 1) * (2 ^ 52 - 1))
      <= w * 2 ^ 52 * 2 ^ 116 * (2 ^ 52 + 1).
Proof.
  intros Hw Hh. unfold ratio, Float64.div, Float64.of_int, Float64.prec, Float64.emax.
  destruct (of_int_faithful w Hw) as (mx & ex & -> & Hmx & Hex & Hbx).
  destruct (of_int_faithful h Hh) as (my & ey & -> & Hmy & Hey & Hby).
  destruct (div_faithful mx my ex ey Hmx Hmy Hex Hey) as (m & e & -> & Hm & He & Hlo & Hhi).
  exists m, e. split; [reflexivity |]. split; [exact Hm |]. split; [lia |].
  cbn [Float64.scaled].
  assert (Hsx : 0 < 2 ^ (ex + 52)) by (apply Z.pow_pos_nonneg; lia).
  assert (Hsy : 0 < 2 ^ (ey + 52)) by (apply Z.pow_pos_nonneg; lia).
  assert (HT : 0 < 2 ^ 52) by reflexivity.
  destruct (relative_of_bracket (2 ^ 52) (Zpos mx) (2 ^ (ex + 52)) (w * 2 ^ 52))
    as [HA1 HA2]; try lia.
  destruct (relative_of_bracket (2 ^ 52) (Zpos my) (2 ^ (ey + 52)) (h * 2 ^ 52))
    as [HB1 HB2]; try lia.
  apply (ratio_chain (2 ^ 52) (2 ^ 116) w h
           (Zpos mx * 2 ^ (ex + 52)) (Zpos my * 2 ^ (ey + 52)) (Zpos m * 2 ^ (e + 116)));
    try lia; try reflexivity;
    try (apply Z.mul_nonneg_nonneg; [lia | apply Z.pow_nonneg; lia]).
  (* the quotient bracket, brought to the common scale *)
  - set (t := 2 ^ (e - (ex - ey - 53))) in *.
    assert (Ht : 0 < t) by (apply Z.pow_pos_nonneg; lia).
    set (g := 2 ^ (ex + 115)).
    assert (Hg : 0 < g) by (apply Z.pow_pos_nonneg; lia).
    assert (E1 : 2 ^ (e + 116) * 2 ^ (ey + 52) = t * g).
    { unfold t, g. rewrite <- !Z.pow_add_r by lia. f_equal. lia. }
    assert (E2 : 2 ^ (ex + 52) * 2 ^ 52 * 2 ^ 116 = 2 ^ 53 * g * 2 ^ 52).
    { unfold g. rewrite <- !Z.pow_add_r by lia. f_equal. lia. }
    replace (Zpos m * 2 ^ (e + 116) * (Zpos my * 2 ^ (ey + 52)))
      with (Zpos m * Zpos my * (t * g)) by (rewrite <- E1; ring).
    replace (Zpos mx * 2 ^ (ex + 52) * 2 ^ 52 * 2 ^ 116)
      with (Zpos mx * 2 ^ 53 * g * 2 ^ 52)
      by (transitivity (Zpos mx * (2 ^ (ex + 52) * 2 ^ 52 * 2 ^ 116)); [rewrite E2 |]; ring).
    revert Hlo Hhi Ht Hg HT Hm Hmy.
    generalize (Zpos mx * 2 ^ 53) (2 ^ 52) (Zpos m) (Zpos my) t g. clear.
    intros Q T m my t g Hlo Hhi Ht Hg HT [Hm _] [Hmy _].
    assert (Hk : 0 < my * t * g) by nia.
    split.
    + assert (S1 : m * (T - 1) * (my * t * g) <= (m - 1) * T * (my * t * g))
        by (apply Z.mul_le_mono_nonneg_r; nia).
      assert (S2 : ((m - 1) * t * my) * (T * g) <= Q * (T * g))
        by (apply Z.mul_le_mono_nonneg_r; nia).
      lia.
    + assert (S1 : Q * (T * g) < ((m + 1) * t * my) * (T * g))
        by (apply Z.mul_lt_mono_pos_r; nia).
      assert (S2 : (m + 1) * T * (my * t * g) <= m * (T + 1) * (my * t * g))
        by (apply Z.mul_le_mono_nonneg_r; nia).
      lia.
Qed.

(** The order of a constant of the bands and the ratio of two positive
    [int]s, decided on the exact ratio [w / h] away from the constant. *)
Lemma lt_ratio (mc : positive) (ec w h : Z) :
  let c := S754_finite false mc ec in
  2 ^ 52 <= Zpos mc < 2 ^ 53 -> -116 <= ec ->
  1 <= w < 2 ^ 63 -> 1 <= h < 2 ^ 63 ->
  (Float64.scaled c * h * ((2 ^ 52 + 1) * (2 ^ 52 + 1)) <= w * 2 ^ 52 * 2 ^ 116 * (2 ^ 52 - 1) ->
   Float64.lt c (ratio w h) = true /\ Float64.lt (ratio w h) c = false) /\
  (w * 2 ^ 52 * 2 ^ 116 * (2 ^ 52 + 1) < Float64.scaled c * h * ((2 ^ 52 - 1) * (2 ^ 52 - 1)) ->
   Float64.lt c (ratio w h) = false /\ Float64.lt (ratio w h) c = true).
Proof.
  intros c Hmc Hec Hw Hh.
  destruct (ratio_faithful w h Hw Hh) as (m & e & Hr & Hm & He & Hlo & Hhi).
  rewrite Hr in *. unfold Float64.lt, c. cbn [Float64.scaled] in *.
  pose proof (SFltb_normal mc m ec e 116 Hmc Hm ltac:(lia) ltac:(lia)) as Hcv.
  pose proof (SFltb_normal m mc e ec 116 Hm Hmc ltac:(lia) ltac:(lia)) as Hvc.
  assert (Hp : 0 < h * ((2 ^ 52 + 1) * (2 ^ 52 + 1))) by lia.
  assert (Hq : 0 < h * ((2 ^ 52 - 1) * (2 ^ 52 - 1))) by lia.
  revert Hlo Hhi Hcv Hvc Hp Hq.
  generalize (Zpos mc * 2 ^ (ec + 116)) (Zpos m * 2 ^ (e + 116))
    (w * 2 ^ 52 * 2 ^ 116 * (2 ^ 52 - 1)) (w * 2 ^ 52 * 2 ^ 116 * (2 ^ 52 + 1)).
  intros Cc C L U Hlo Hhi Hcv Hvc Hp Hq.
  replace (C * h * ((2 ^ 52 + 1) * (2 ^ 52 + 1))) with (C * (h * ((2 ^ 52 + 1) * (2 ^ 52 + 1)))) in Hlo by ring.
  replace (C * h * ((2 ^ 52 - 1) * (2 ^ 52 - 1))) with (C * (h * ((2 ^ 52 - 1) * (2 ^ 52 - 1)))) in Hhi by ring.
  replace (Cc * h * ((2 ^ 52 + 1) * (2 ^ 52 + 1))) with (Cc * (h * ((2 ^ 52 + 1) * (2 ^ 52 + 1)))) by ring.
  replace (Cc * h * ((2 ^ 52 - 1) * (2 ^ 52 - 1))) with (Cc * (h * ((2 ^ 52 - 1) * (2 ^ 52 - 1)))) by ring.
  revert Hlo Hhi Hp Hq.
  generalize (h * ((2 ^ 52 + 1) * (2 ^ 52 + 1))) (h * ((2 ^ 52 - 1) * (2 ^ 52 - 1))).
  intros P Q Hlo Hhi Hp Hq.
  split; intros Hc.
  - assert (Cc < C) by nia.
    split; [apply Hcv; assumption |].
    apply not_true_is_false. intros E. apply Hvc in E. lia.
  - assert (C < Cc) by nia.
    split; [| apply Hvc; assumption].
    apply not_true_is_false. intros E. apply Hcv in E. lia.
Qed.










(** ** The parameter loop of [mime.ParseMediaType] ends *)

Lemma TrimLeft_length (s : string) :
  (String.length (Strings.TrimLeft s) <= String.length s)%nat.
Proof.
  induction s as [| c r IH]; cbn [Strings.TrimLeft String.length]; [lia |].
  destruct (Strings.isSpace c); cbn [String.length]; lia.
Qed.

Lemma span_length (p : ascii -> bool) (s a b : string) :
  Strings.span p s = (a, b) -> (String.length a + String.length b = String.length s)%nat.
Proof.
  revert a b. induction s as [| c r IH]; intros a b; cbn [Strings.span].
  - intros [= <- <-]. reflexivity.
  - destruct (p c).
    + destruct (Strings.span p r) as [a' b'] eqn:E. intros [= <- <-].
      cbn [String.length]. rewrite <- (IH a' b' eq_refl). lia.
    + intros [= <- <-]. reflexivity.
Qed.

Lemma tail_prefix_length (s : string) (c : ascii) :
  Strings.HasPrefix s c = true -> S (String.length (Strings.tail s)) = String.length s.
Proof.
  destruct s; [discriminate | reflexivity].
Qed.

Lemma quoted_length_bounded (n : nat) :
  forall v, (String.length v <= n)%nat ->
  forall acc value rest,
    Mime.quoted v acc = Some (value, rest) -> (String.length rest < String.length v)%nat.
Proof.
  induction n as [| n IH]; intros v Hn acc value rest;
    destruct v as [| c r]; cbn [Mime.quoted]; try discriminate;
    cbn [String.length] in Hn; [lia |].
  destruct (Ascii.eqb c Mime.dquote).
  - intros [= _ <-]. cbn [String.length]. lia.
  - destruct (Ascii.eqb c Mime.backslash).
    + destruct r as [| c' r'].
      * cbn [Mime.quoted]. discriminate.
      * destruct (Mime.isTSpecial c'); intros H; apply IH in H;
          cbn [String.length] in *; lia.
    + destruct (Ascii.eqb c "013" || Ascii.eqb c "010"); [discriminate |].
      intros H. apply IH in H; cbn [String.length] in *; lia.
Qed.

Lemma quoted_length (v acc value rest : string) :
  Mime.quoted v acc = Some (value, rest) -> (String.length rest < String.length v)%nat.
Proof.
  apply (quoted_length_bounded (String.length v)). reflexivity.
Qed.

Lemma consumeValue_length (v value rest : string) :
  Mime.consumeValue v = (value, rest) -> (String.length rest <= String.length v)%nat.
Proof.
  destruct v as [| c r]; cbn [Mime.consumeValue].
  - intros [= _ <-]. reflexivity.
  - destruct (Ascii.eqb c Mime.dquote).
    + destruct (Mime.quoted r EmptyString) as [[value' rest'] |] eqn:E.
      * intros [= _ <-]. apply quoted_length in E. cbn [String.length]. lia.
      * intros [= _ <-]. reflexivity.
    + unfold Mime.consumeToken. intros H. apply span_length in H. lia.
Qed.

Lemma consumeMediaParam_length (v key value rest : string) :
  Mime.consumeMediaParam v = (key, value, rest) ->
  key <> EmptyString ->
  (String.length rest < String.length v)%nat.
Proof.
  unfold Mime.consumeMediaParam.
  pose proof (TrimLeft_length v) as H0.
  destruct (Strings.HasPrefix (Strings.TrimLeft v) ";") eqn:Hsemi; cbn [negb];
    [| intros [= <- _ _] Hk; congruence].
  apply tail_prefix_length in Hsemi.
  pose proof (TrimLeft_length (Strings.tail (Strings.TrimLeft v))) as H1.
  unfold Mime.consumeToken.
  destruct (Strings.span Mime.isTokenChar _) as [param rest1] eqn:Hspan.
  apply span_length in Hspan.
  destruct (String.eqb (Strings.ToLower param) EmptyString);
    [intros [= <- _ _] Hk; congruence |].
  pose proof (TrimLeft_length rest1) as H2.
  destruct (Strings.HasPrefix (Strings.TrimLeft rest1) "=") eqn:Heq; cbn [negb];
    [| intros [= <- _ _] Hk; congruence].
  apply tail_prefix_length in Heq.
  pose proof (TrimLeft_length (Strings.tail (Strings.TrimLeft rest1))) as H3.
  destruct (Mime.consumeValue _) as [value' rest2] eqn:Hval.
  apply consumeValue_length in Hval.
  destruct (_ && _); [intros [= <- _ _] Hk; congruence |].
  intros [= _ _ <-] _. lia.
Qed.

(** With more fuel than the parameter text has bytes, the loop returns. *)
Lemma paramLoop_total (fuel : nat) :
  forall (v : string) (params : list (string * string)),
    (String.length v < fuel)%nat ->
    exists r, Mime.paramLoop fuel v params = Some r.
Proof.
  induction fuel as [| fuel IH]; intros v params Hlen; [lia |].
  cbn [Mime.paramLoop].
  destruct (String.eqb v EmptyString); [eauto |].
  destruct (String.eqb (Strings.TrimLeft v) EmptyString); [eauto |].
  destruct (Mime.consumeMediaParam (Strings.TrimLeft v)) as [[key value] rest] eqn:E.
  destruct (String.eqb key EmptyString) eqn:Hk.
  - destruct (String.eqb (Strings.TrimSpace rest) ";"); eauto.
  - apply String.eqb_neq in Hk.
    apply consumeMediaParam_length in E; [| exact Hk].
    pose proof (TrimLeft_length v).
    destruct (Mime.lookup_param key params) as [x |].
    + destruct (String.eqb x value); [| eauto]. apply IH. lia.
    + apply IH. lia.
Qed.

(** ** More on the classifier *)

Lemma band_label (ar : Float64.float64) (label : string) :
  band ar = Some label -> In label ["16:9"; "4:3"; "9:16"; "3:4"].
Proof.
  unfold band.
  repeat match goal with
         | |- context [if ?c then _ else _] => destruct c
         end; intros [= <-]; simpl; tauto.
Qed.

Lemma stream_label_not_other (s : Stream) : stream_label s <> Some "other".
Proof.
  unfold stream_label. destruct (oriented s) as [a b]. intros H.
  apply band_label in H. simpl in H. intuition discriminate.
Qed.

Lemma classifyStreams_label (streams : list Stream) : In (classifyStreams streams) labels.
Proof.
  induction streams as [| s rest IH]; [simpl; tauto |].
  simpl. destruct (skipped s); [exact IH |].
  destruct (stream_label s) as [label |] eqn:Hl; [| exact IH].
  unfold stream_label in Hl. destruct (oriented s) as [a b].
  apply band_label in Hl. unfold labels. simpl in *. tauto.
Qed.

(** X1: [getVideoAspectRatio] returns the error of the probe process when it
    fails, else the error of the decoder when its output does not decode,
    and otherwise never fails: it returns one of the five labels "16:9",
    "4:3", "9:16", "3:4", "other", the label of the decoded streams. *)
Theorem getVideoAspectRatio_contract (env : Env) (filePath : string) :
  match exec_ffprobe env filePath with
  | Err e => getVideoAspectRatio env filePath = Err e
  | Ok out =>
      match json_Unmarshal env out with
      | Err e => getVideoAspectRatio env filePath = Err e
      | Ok streams =>
          getVideoAspectRatio env filePath = Ok (classifyStreams streams) /\
          In (classifyStreams streams) labels
      end
  end.
Proof.
  unfold getVideoAspectRatio.
  destruct (exec_ffprobe env filePath) as [out | e]; [| reflexivity].
  destruct (json_Unmarshal env out) as [streams | e]; [| reflexivity].
  split; [reflexivity | apply classifyStreams_label].
Qed.

(** X2: streams that fail the filter (codec type other than "video", width
    or height not positive) have no effect on the label wherever they stand
    in the probe output: dropping them all leaves the label as it is. An
    output with no stream that passes gives "other". *)
Theorem skipped_streams_never_matter (streams : list Stream) :
  classifyStreams (List.filter (fun s => negb (skipped s)) streams) = classifyStreams streams /\
  (List.filter (fun s => negb (skipped s)) streams = [] -> classifyStreams streams = "other").
Proof.
  assert (H : classifyStreams (List.filter (fun s => negb (skipped s)) streams)
              = classifyStreams streams).
  { induction streams as [| s rest IH]; [reflexivity |].
    cbn [List.filter classifyStreams]. destruct (skipped s) eqn:Hs; cbn [negb].
    - exact IH.
    - cbn [classifyStreams]. rewrite Hs, IH. reflexivity. }
  split; [exact H |].
  intros Hnil. rewrite <- H, Hnil. reflexivity.
Qed.

Lemma skipped_streams_never_matter_witness :
  classifyStreams [Sample.audio_stream; Sample.video_stream 0 1080 EmptyString] = "other".
Proof.
  apply (proj2 (skipped_streams_never_matter
                  [Sample.audio_stream; Sample.video_stream 0 1080 EmptyString])).
  reflexivity.
Defined.

(** X3: the label of two probe outputs put one after the other is the label
    of the first unless that is "other", in which case it is the label of
    the second: the first stream in a band wins and later streams cannot
    change it. *)
Theorem classifyStreams_app (first second : list Stream) :
  classifyStreams (first ++ second)
  = if String.eqb (classifyStreams first) "other" then classifyStreams second
    else classifyStreams first.
Proof.
  induction first as [| s rest IH]; [reflexivity |].
  rewrite <- app_comm_cons. cbn [classifyStreams].
  destruct (skipped s); [exact IH |].
  destruct (stream_label s) as [label |] eqn:Hl; [| exact IH].
  destruct (String.eqb_spec label "other") as [-> | Hne]; [| reflexivity].
  exfalso. exact (stream_label_not_other s Hl).
Qed.

(** ** More on the handler *)

(** X4: whatever the request and the answers of the collaborators, the
    handler writes exactly one response, with a status among 200, 400, 401,
    403, 404 and 500, and the status is 200 exactly when the record store
    took the update of the URL. *)
Theorem exactly_one_response (cfg : apiConfig) (env : Env) (r : Request) (w : World) :
  let s := serve cfg env r w in
  exists code payload,
    response s = Some {| StatusCode := code; Payload := payload |} /\
    responses (trace s) = [code] /\
    In code [200; 400; 401; 403; 404; 500] /\
    (code = 200 <-> record_updated s).
Proof.
  cbv zeta. unfold record_updated. run_handler.
  all: eexists _, _; split; [reflexivity |]; split; [reflexivity |].
  all: split; [simpl; tauto |].
  all: split; [try discriminate; intros _; eexists; simpl; tauto |].
  all: intros [u Hin]; in_trace; reflexivity.
Qed.

(** X5: a request whose caller is not authorized (the identifier does not
    parse, the credential is missing or invalid, the record does not exist
    or belongs to someone else) changes nothing: the world is as before, no
    call that stores anything is made, and the status is 400, 401, 403 or
    404. *)
Theorem unauthorized_changes_nothing
    (cfg : apiConfig) (env : Env) (r : Request) (w : World) :
  (forall videoID video, ~ authorized cfg env r w videoID video) ->
  let s := serve cfg env r w in
  world s = w /\
  (forall e, In e (trace s) -> stores e = false) /\
  exists code, status s = Some code /\ In code [400; 401; 403; 404].
Proof.
  intros Hno. cbv zeta. unfold status. run_handler.
  all: try (exfalso;
            repeat match goal with
                   | H : negb _ = false |- _ => apply negb_false_iff in H
                   | H : (_ =? _)%N = true |- _ => apply N.eqb_eq in H
                   end; subst;
            eapply Hno; eexists; repeat split; eassumption).
  all: split; [reflexivity |].
  all: split; [intros ev Hin; in_trace; reflexivity |].
  all: eexists; split; [reflexivity | simpl; tauto].
Qed.

Lemma unauthorized_changes_nothing_witness :
  world (serve Sample.cfg (Sample.env (Ok "token") (Ok 8%N) [] None None)
           (Sample.request "multipart/form-data" "video/mp4") Sample.world)
  = Sample.world.
Proof.
  refine (proj1 (unauthorized_changes_nothing Sample.cfg _ _ Sample.world _)).
  intros videoID video (token & Hid & _ & Hjwt & Hdb).
  injection Hid as <-. injection Hjwt as Hu.
  vm_compute in Hdb. injection Hdb as <-. discriminate Hu.
Defined.



(** What a request can do to the world: nothing, or one object put for an
    authorized caller, with or without the update of the record. *)
Lemma serve_world (cfg : apiConfig) (env : Env) (r : Request) (w : World) :
  let s := serve cfg env r w in
  world s = w \/
  exists videoID video key o,
    authorized cfg env r w videoID video /\
    In (EPutObject (s3Bucket cfg) key true) (trace s) /\
    objects (world s) = <[(s3Bucket cfg, key) := o]> (objects w) /\
    tmp (world s) = tmp w /\
    (db (world s) = db w \/
     db (world s) = <[ID video := set_VideoURL video (videoURL cfg key)]> (db w)).
Proof.
  cbv zeta. run_handler.
  all: rewrite ?tmp_restored by assumption; rewrite ?world_eta.
  all: try (left; reflexivity).
  all: right.
  all: repeat match goal with
              | H : negb _ = false |- _ => apply negb_false_iff in H
              | H : (_ =? _)%N = true |- _ => apply N.eqb_eq in H
              end; subst.
  all: eexists _, _, _, _.
  all: (split; [eexists; repeat split; eassumption |]).
  all: (split; [simpl; tauto |]).
  all: (split; [reflexivity |]).
  all: (split; [reflexivity |]).
  - left; reflexivity.
  - right; reflexivity.
Qed.

(** X7: the handler touches one record and one object at most. When the
    record store is keyed by the identifiers of its records, it stays so,
    every record but the one named in the path is as before, and that one
    keeps its identifier and its owner; every object but the one put under
    the bucket of the configuration is as before. *)
Theorem only_the_named_record (cfg : apiConfig) (env : Env) (r : Request) (w : World)
    (videoID : UUID) :
  uuid_Parse env (PathValue r "videoID") = Ok videoID ->
  keyed_by_ID (db w) ->
  let s := serve cfg env r w in
  keyed_by_ID (db (world s)) /\
  (forall id, id <> videoID -> db (world s) !! id = db w !! id) /\
  (forall v', db (world s) !! videoID = Some v' ->
     exists v, db w !! videoID = Some v /\ ID v' = ID v /\ UserID v' = UserID v) /\
  (forall bk, objects (world s) !! bk <> objects w !! bk ->
     exists key, bk = (s3Bucket cfg, key) /\ In (EPutObject (s3Bucket cfg) key true) (trace s)).
Proof.
  intros Hid Hkeyed s.
  assert (Hsame : db (world s) = db w ->
            keyed_by_ID (db (world s)) /\
            (forall id, id <> videoID -> db (world s) !! id = db w !! id) /\
            (forall v', db (world s) !! videoID = Some v' ->
               exists v, db w !! videoID = Some v /\ ID v' = ID v /\ UserID v' = UserID v)).
  { intros ->. split; [exact Hkeyed | split; [reflexivity |]].
    intros v' Hv'. exists v'. auto. }
  destruct (serve_world cfg env r w) as [Hw | (vid & video & key & o & Hauth & Hput & Hobj & _ & Hdb)];
    fold s in Hw || fold s in Hput, Hobj, Hdb.
  - rewrite Hw in *. destruct (Hsame eq_refl) as (H1 & H2 & H3).
    repeat split; try assumption. intros bk Hbk. congruence.
  - assert (Hobjects : forall bk, objects (world s) !! bk <> objects w !! bk ->
              exists key, bk = (s3Bucket cfg, key)
                          /\ In (EPutObject (s3Bucket cfg) key true) (trace s)).
    { intros bk Hbk. rewrite Hobj in Hbk.
      destruct (decide ((s3Bucket cfg, key) = bk)) as [<- | Hne].
      - exists key. split; [reflexivity | exact Hput].
      - rewrite lookup_insert_ne in Hbk by exact Hne. congruence. }
    destruct Hdb as [Hdb | Hdb].
    + destruct (Hsame Hdb) as (H1 & H2 & H3). repeat split; assumption.
    + destruct Hauth as (token & Hid' & _ & _ & Hv).
      rewrite Hid in Hid'. injection Hid' as <-.
      pose proof (Hkeyed _ _ Hv) as HID.
      rewrite Hdb, HID.
      split; [| split; [| split; [| exact Hobjects]]].
      * intros id v'. destruct (decide (videoID = id)) as [<- | Hne].
        -- rewrite lookup_insert_eq. intros [= <-]. exact HID.
        -- rewrite lookup_insert_ne by exact Hne. apply Hkeyed.
      * intros id Hne. rewrite lookup_insert_ne by congruence. reflexivity.
      * intros v'. rewrite lookup_insert_eq. intros [= <-].
        exists video. split; [exact Hv | split; reflexivity].
Qed.

Lemma only_the_named_record_witness :
  let s := serve Sample.cfg (Sample.good_env [Sample.video_stream 1920 1080 EmptyString])
             (Sample.request "multipart/form-data" "video/mp4") Sample.world in
  db (world s) !! 2%N = db Sample.world !! 2%N.
Proof.
  cbv zeta.
  refine (proj1 (proj2 (only_the_named_record Sample.cfg _ _ Sample.world 1%N _ _)) 2%N _).
  - reflexivity.
  - intros id v. unfold Sample.world; cbn [db].
    destruct (decide (1%N = id)) as [<- | Hne].
    + rewrite lookup_singleton_eq. intros [= <-]. reflexivity.
    + rewrite lookup_singleton_ne by exact Hne. discriminate.
  - discriminate.
Defined.




(** ** The random name *)

Lemma unpair_digit (v : Byte.byte) :
  unpair (Hex.digit (N.shiftr (Byte.to_N v) 4)) (Hex.digit (N.land (Byte.to_N v) 15)) = v.
Proof.
  destruct v; reflexivity.
Qed.

Lemma EncodeToString_inj (a b : list Byte.byte) :
  Hex.EncodeToString a = Hex.EncodeToString b -> a = b.
Proof.
  revert b. induction a as [| x a IH]; intros [| y b]; cbn [Hex.EncodeToString];
    try discriminate; [reflexivity |].
  intros [= H1 H2 Hrest].
  rewrite <- (unpair_digit x), <- (unpair_digit y), H1, H2.
  f_equal. apply IH. exact Hrest.
Qed.

Lemma append_inj_length (a a' b b' : string) :
  String.length a = String.length a' -> a ++ b = a' ++ b' -> a = a' /\ b = b'.
Proof.
  revert a'. induction a as [| c a IH]; intros [| c' a']; cbn [String.length String.append];
    try discriminate.
  - auto.
  - intros [= Hlen] [= -> Heq]. destruct (IH a' Hlen Heq) as [-> ->]. auto.
Qed.

Lemma append_length (a b : string) :
  String.length (a ++ b) = (String.length a + String.length b)%nat.
Proof.
  induction a as [| c a IH]; simpl; [reflexivity | f_equal; exact IH].
Qed.

(** X9: the address of the object determines the random bytes of its name:
    two uploads under one configuration whose random buffers differ get
    different keys and different URLs, whatever their classification; equal
    URLs mean equal prefix and equal random bytes. *)
Theorem url_determines_random_bytes
    (cfg : apiConfig) (prefix prefix' : string) (rnd rnd' : list Byte.byte) :
  videoURL cfg (s3Key prefix (Hex.EncodeToString (randomBytes rnd)))
  = videoURL cfg (s3Key prefix' (Hex.EncodeToString (randomBytes rnd'))) ->
  prefix = prefix' /\ randomBytes rnd = randomBytes rnd'.
Proof.
  unfold videoURL, s3Key. intros H.
  do 6 (apply append_inj_length in H; [destruct H as [_ H] | reflexivity]).
  assert (Hlen : String.length prefix = String.length prefix').
  { apply (f_equal String.length) in H.
    rewrite !append_length, !EncodeToString_length, !randomBytes_length in H. lia. }
  apply append_inj_length in H; [| exact Hlen]. destruct H as [-> H].
  apply append_inj_length in H; [destruct H as [_ H] | reflexivity].
  apply append_inj_length in H;
    [| rewrite !EncodeToString_length, !randomBytes_length; reflexivity].
  destruct H as [H _]. split; [reflexivity | apply EncodeToString_inj; exact H].
Qed.

Lemma url_determines_random_bytes_witness :
  "landscape" = "landscape" /\ randomBytes [Byte.xab] = randomBytes [Byte.xab].
Proof.
  apply (url_determines_random_bytes Sample.cfg "landscape" "landscape" [Byte.xab] [Byte.xab]).
  reflexivity.
Defined.

(** ** The handler before classification *)

Ltac run_plain :=
  unfold Plain.serve, Plain.handlerUploadVideo; repeat (handler_simpl; try handler_step).

(** X10: the earlier handler never runs the probe, and the two handlers part
    ways only there: on every request that the classifying handler settles
    without reaching the probe, the earlier one ends in the same state, with
    the same response, world and calls. *)
Theorem plain_agrees_before_the_probe
    (cfg : apiConfig) (env : Env) (r : Request) (w : World) :
  (forall path, ~ In (EProbe path) (trace (Plain.serve cfg env r w))) /\
  ((forall path, ~ In (EProbe path) (trace (serve cfg env r w))) ->
   Plain.serve cfg env r w = serve cfg env r w).
Proof.
  split.
  - run_plain; intros path Hin; in_trace.
  - unfold Plain.serve, Plain.handlerUploadVideo, serve, handlerUploadVideo.
    repeat (handler_simpl; try handler_step).
    all: intros Hno; try reflexivity.
    all: exfalso; eapply Hno; simpl; eauto 10.
Qed.

Lemma plain_agrees_before_the_probe_witness :
  Plain.serve Sample.cfg (Sample.good_env []) (Sample.request "multipart/form-data" "image/png")
    Sample.world
  = serve Sample.cfg (Sample.good_env []) (Sample.request "multipart/form-data" "image/png")
      Sample.world.
Proof.
  apply (proj2 (plain_agrees_before_the_probe Sample.cfg (Sample.good_env [])
                  (Sample.request "multipart/form-data" "image/png") Sample.world)).
  intros path Hin. vm_compute in Hin. in_trace.
Defined.

(** X11: the earlier handler names the object [videos/<t>.mp4], with [t] the
    64 lowercase hexadecimal characters of the random buffer: that is the
    URL of every response with status 200. On every path it leaves the
    temporary directory as it found it and writes one response. *)
Theorem plain_success_url (cfg : apiConfig) (env : Env) (r : Request) (w : World) :
  let s := Plain.serve cfg env r w in
  tmp (world s) = tmp w /\
  (exists code, responses (trace s) = [code]) /\
  (status s = Some StatusOK ->
   exists rnd,
     crand_Read env = Ok rnd /\
     let t := Hex.EncodeToString (randomBytes rnd) in
     response s =
       Some {| StatusCode := StatusOK;
               Payload :=
                 [("message", "Video uploaded successfully");
                  ("video_url",
                   "https://" ++ s3Bucket cfg ++ ".s3." ++ s3Region cfg
                     ++ ".amazonaws.com/videos/" ++ t ++ ".mp4")] |} /\
     String.length t = 64%nat /\
     all_chars Hex.is_lower_hex t = true).
Proof.
  cbv zeta. unfold status. run_plain.
  all: split; [try reflexivity; apply tmp_restored; assumption |].
  all: split; [eexists; reflexivity |].
  all: intros Hok; try discriminate Hok.
  eexists. split; [reflexivity |].
  split; [reflexivity |].
  split; [rewrite EncodeToString_length; unfold randomBytes; rewrite overwrite_length; reflexivity |].
  apply EncodeToString_lower_hex.
Qed.

Lemma plain_success_url_witness :
  response (Plain.serve Sample.cfg (Sample.good_env [])
              (Sample.request "multipart/form-data" "video/mp4") Sample.world)
  = Some {| StatusCode := StatusOK;
            Payload :=
              [("message", "Video uploaded successfully");
               ("video_url",
                "https://tubely.s3.us-east-2.amazonaws.com/videos/" ++ Sample.hex_ab ++ ".mp4")] |}.
Proof.
  destruct (proj2 (proj2 (plain_success_url Sample.cfg (Sample.good_env [])
              (Sample.request "multipart/form-data" "video/mp4") Sample.world)))
    as (rnd & Hrnd & Hresp & _).
  - reflexivity.
  - injection Hrnd as <-. exact Hresp.
Defined.

(** ** Rounding, exactly

    The conversions are exact below [2^53] and the division rounds the exact
    quotient to nearest, ties to even; so the ratio of two such [int]s
    depends on their quotient alone. *)

Lemma loc_of_shr_record_of_loc (m : Z) (l : location) :
  loc_of_shr_record (shr_record_of_loc m l) = l.
Proof. destruct l as [| []]; reflexivity. Qed.

Lemma shr_fexp_53 (mx ex : Z) (lx : location) :
  2 ^ 52 <= mx < 2 ^ 53 -> -1074 <= ex ->
  shr_fexp 53 1024 mx ex lx = (shr_record_of_loc mx lx, ex).
Proof.
  intros Hmx He. unfold shr_fexp. rewrite (Zdigits2_unique mx 53) by lia.
  unfold fexp, emin. rewrite Z.max_l by lia.
  replace (53 + ex - 53 - ex) with 0 by lia. reflexivity.
Qed.

Lemma shr_fexp_54 (mx ex : Z) (lx : location) :
  2 ^ 53 <= mx < 2 ^ 54 -> -1074 <= ex + 1 ->
  shr_fexp 53 1024 mx ex lx = (shr_1 (shr_record_of_loc mx lx), ex + 1).
Proof.
  intros Hmx He. unfold shr_fexp. rewrite (Zdigits2_unique mx 54) by lia.
  unfold fexp, emin. rewrite Z.max_l by lia.
  replace (54 + ex - 53 - ex) with 1 by lia. reflexivity.
Qed.

(** The second step of rounding: a mantissa from [2^52] to [2^53] is kept,
    or carried to the next exponent. *)
Lemma round_finish (m e : Z) :
  2 ^ 52 <= m <= 2 ^ 53 -> -1074 <= e < 971 ->
  (let '(mrs, e') := shr_fexp 53 1024 m e loc_Exact in
   match shr_m mrs with
   | 0 => S754_zero false
   | Zpos p => if e' <=? 1024 - 53 then S754_finite false p e' else S754_infinity false
   | Zneg _ => S754_nan
   end) = renorm m e.
Proof.
  intros Hm He. unfold renorm.
  destruct (Z.eqb_spec m (2 ^ 53)) as [-> | Hne].
  - rewrite shr_fexp_54 by lia. cbn [shr_record_of_loc].
    change (shr_m (shr_1 {| shr_m := 2 ^ 53; shr_r := false; shr_s := false |}))
      with (Zpos (2 ^ 52)).
    cbv iota. replace (e + 1 <=? 1024 - 53) with true by (symmetry; apply Z.leb_le; lia).
    reflexivity.
  - rewrite shr_fexp_53 by lia. rewrite shr_record_of_loc_m.
    destruct m as [| p |]; try lia.
    replace (e <=? 1024 - 53) with true by (symmetry; apply Z.leb_le; lia).
    reflexivity.
Qed.

Lemma rne_bounds (N D : Z) : N / D <= rne N D <= N / D + 1.
Proof.
  unfold rne. destruct (_ || _); lia.
Qed.

Lemma rne_scale (k N D : Z) : 0 < k -> 0 < D -> rne (k * N) (k * D) = rne N D.
Proof.
  intros Hk HD. unfold rne.
  rewrite Z.div_mul_cancel_l by lia.
  rewrite Z.mul_mod_distr_l by lia.
  assert (H1 : (k * D <? 2 * (k * (N mod D))) = (D <? 2 * (N mod D))).
  { destruct (Z.ltb_spec D (2 * (N mod D))); [apply Z.ltb_lt | apply Z.ltb_ge]; nia. }
  assert (H2 : (2 * (k * (N mod D)) =? k * D) = (2 * (N mod D) =? D)).
  { destruct (Z.eqb_spec (2 * (N mod D)) D); [apply Z.eqb_eq | apply Z.eqb_neq]; nia. }
  rewrite H1, H2. reflexivity.
Qed.

(** Rounding by the location of the remainder is [rne]. *)
Lemma round_new_location (q r D : Z) :
  0 < D -> 0 <= r < D -> 0 <= q ->
  round_nearest_even q (new_location D r) = rne (q * D + r) D.
Proof.
  intros HD Hr Hq. unfold rne.
  replace ((q * D + r) / D) with q by (apply Z.div_unique with r; lia).
  replace ((q * D + r) mod D) with r by (apply Z.mod_unique with q; lia).
  unfold new_location, new_location_even, new_location_odd.
  destruct (Z.even D) eqn:Hev.
  - destruct (Z.eqb_spec r 0) as [-> | Hr0].
    + cbn [round_nearest_even]. replace (D <? 2 * 0) with false by (symmetry; apply Z.ltb_ge; lia).
      replace (2 * 0 =? D) with false by (symmetry; apply Z.eqb_neq; lia). cbn. lia.
    + cbn [round_nearest_even].
      destruct (Z.compare_spec (2 * r) D) as [Heq | Hlt | Hgt].
      * replace (D <? 2 * r) with false by (symmetry; apply Z.ltb_ge; lia).
        replace (2 * r =? D) with true by (symmetry; apply Z.eqb_eq; lia).
        cbn [orb andb]. rewrite <- Z.negb_even. destruct (Z.even q); cbn; lia.
      * replace (D <? 2 * r) with false by (symmetry; apply Z.ltb_ge; lia).
        replace (2 * r =? D) with false by (symmetry; apply Z.eqb_neq; lia).
        cbn. lia.
      * replace (D <? 2 * r) with true by (symmetry; apply Z.ltb_lt; lia).
        cbn. reflexivity.
  - assert (Hodd : 2 * r <> D).
    { intros <-. rewrite Z.even_mul in Hev. discriminate. }
    destruct (Z.eqb_spec r 0) as [-> | Hr0].
    + cbn [round_nearest_even]. replace (D <? 2 * 0) with false by (symmetry; apply Z.ltb_ge; lia).
      replace (2 * 0 =? D) with false by (symmetry; apply Z.eqb_neq; lia). cbn. lia.
    + replace (2 * r =? D) with false by (symmetry; apply Z.eqb_neq; lia).
      rewrite andb_false_l, orb_false_r.
      destruct (Z.compare_spec (2 * r + 1) D) as [Heq | Hlt | Hgt]; cbn [round_nearest_even].
      * replace (D <? 2 * r) with false by (symmetry; apply Z.ltb_ge; lia). lia.
      * replace (D <? 2 * r) with false by (symmetry; apply Z.ltb_ge; lia). lia.
      * replace (D <? 2 * r) with true by (symmetry; apply Z.ltb_lt; lia). reflexivity.
Qed.

(** A quotient of 53 bits with its remainder rounds to [rne]. *)
Lemma round_53 (q r D e : Z) :
  0 < D -> 0 <= r < D -> 2 ^ 52 <= q < 2 ^ 53 -> -1074 <= e < 971 ->
  binary_round_aux 53 1024 false q e (new_location D r) = renorm (rne (q * D + r) D) e.
Proof.
  intros HD Hr Hq He. unfold binary_round_aux.
  rewrite shr_fexp_53 by lia.
  rewrite shr_record_of_loc_m, loc_of_shr_record_of_loc.
  rewrite round_new_location by lia.
  apply round_finish; [| lia].
  pose proof (rne_bounds (q * D + r) D) as Hb.
  replace ((q * D + r) / D) with q in Hb by (apply Z.div_unique with r; lia).
  lia.
Qed.

(** A quotient of 54 bits loses its last bit first and rounds to [rne] of
    half the quotient. *)
Lemma round_54 (q r D e : Z) :
  0 < D -> 0 <= r < D -> 2 ^ 53 <= q < 2 ^ 54 -> -1074 <= e + 1 < 971 ->
  binary_round_aux 53 1024 false q e (new_location D r)
  = renorm (rne (q * D + r) (2 * D)) (e + 1).
Proof.
  intros HD Hr Hq He. unfold binary_round_aux.
  rewrite shr_fexp_54 by lia.
  set (h := q / 2). set (b := q mod 2).
  assert (Hqb : q = 2 * h + b /\ 0 <= b < 2).
  { unfold h, b. split; [apply Z.div_mod; lia | apply Z.mod_pos_bound; lia]. }
  destruct Hqb as [Hqh Hb].
  assert (Hdiv : (q * D + r) / (2 * D) = h).
  { symmetry. apply Z.div_unique with (b * D + r); nia. }
  assert (Hmod : (q * D + r) mod (2 * D) = b * D + r).
  { symmetry. apply Z.mod_unique with h; nia. }
  assert (Hround :
    round_nearest_even (shr_m (shr_1 (shr_record_of_loc q (new_location D r))))
      (loc_of_shr_record (shr_1 (shr_record_of_loc q (new_location D r))))
    = rne (q * D + r) (2 * D)).
  { unfold rne. rewrite Hdiv, Hmod.
    assert (Hexact : new_location D r = loc_Exact <-> r = 0).
    { unfold new_location, new_location_even, new_location_odd.
      destruct (Z.even D); destruct (Z.eqb_spec r 0); split; intros; try tauto; try discriminate. }
    assert (Hshr : forall rb sb,
               shr_1 {| shr_m := q; shr_r := rb; shr_s := sb |}
               = {| shr_m := h; shr_r := (b =? 1); shr_s := rb || sb |}).
    { intros rb sb. unfold h, b. destruct q as [| [p | p |] |]; try lia; cbn [shr_1].
      - f_equal. apply Z.div_unique with 1; lia.
        symmetry. apply Z.eqb_eq. symmetry. apply Z.mod_unique with (Zpos p); lia.
      - f_equal. apply Z.div_unique with 0; lia.
        symmetry. apply Z.eqb_neq. intros H. symmetry in H.
        rewrite <- (Z.mod_unique (Zpos p~0) 2 (Zpos p) 0) in H; lia. }
    assert (Hb01 : b = 0 \/ b = 1) by lia.
    destruct (new_location D r) as [| c] eqn:Hloc.
    - (* exact *)
      assert (r = 0) by (apply Hexact; reflexivity). subst r.
      cbn [shr_record_of_loc]. rewrite Hshr. cbn [shr_m loc_of_shr_record orb].
      destruct Hb01 as [-> | ->]; cbn [Z.eqb Pos.eqb].
      + cbn [round_nearest_even].
        replace (2 * D <? 2 * (0 * D + 0)) with false by (symmetry; apply Z.ltb_ge; lia).
        replace (2 * (0 * D + 0) =? 2 * D) with false by (symmetry; apply Z.eqb_neq; lia).
        cbn. lia.
      + cbn [round_nearest_even].
        replace (2 * D <? 2 * (1 * D + 0)) with false by (symmetry; apply Z.ltb_ge; lia).
        replace (2 * (1 * D + 0) =? 2 * D) with true by (symmetry; apply Z.eqb_eq; lia).
        cbn [orb andb]. rewrite <- Z.negb_even. destruct (Z.even h); cbn; lia.
    - (* inexact *)
      assert (r <> 0) by (intros Hr0; apply Hexact in Hr0; discriminate).
      assert (Hrec : shr_1 (shr_record_of_loc q (loc_Inexact c))
                     = {| shr_m := h; shr_r := (b =? 1); shr_s := true |}).
      { destruct c; cbn [shr_record_of_loc]; rewrite Hshr; reflexivity. }
      rewrite Hrec. cbn [shr_m loc_of_shr_record].
      destruct Hb01 as [-> | ->]; cbn [Z.eqb Pos.eqb round_nearest_even].
      + replace (2 * D <? 2 * (0 * D + r)) with false by (symmetry; apply Z.ltb_ge; lia).
        replace (2 * (0 * D + r) =? 2 * D) with false by (symmetry; apply Z.eqb_neq; lia).
        cbn. lia.
      + replace (2 * D <? 2 * (1 * D + r)) with true by (symmetry; apply Z.ltb_lt; lia).
        reflexivity. }
  rewrite Hround.
  apply round_finish; [| lia].
  pose proof (rne_bounds (q * D + r) (2 * D)) as Hbd. rewrite Hdiv in Hbd.
  lia.
Qed.

(** The division of two positive floats with 53-bit mantissas rounds the
    exact quotient of the mantissas to nearest, ties to even. *)
Lemma div_exact (mx my : positive) (ex ey : Z) :
  2 ^ 52 <= Zpos mx < 2 ^ 53 -> 2 ^ 52 <= Zpos my < 2 ^ 53 ->
  -52 <= ex <= 0 -> -52 <= ey <= 0 ->
  let s := if Zpos mx <? Zpos my then 53 else 52 in
  SFdiv 53 1024 (S754_finite false mx ex) (S754_finite false my ey)
  = renorm (rne (Zpos mx * 2 ^ s) (Zpos my)) (ex - ey - s).
Proof.
  intros Hmx Hmy Hex Hey s.
  cbn [SFdiv xorb]. unfold SFdiv_core_binary.
  rewrite (Zdigits2_unique (Zpos mx) 53), (Zdigits2_unique (Zpos my) 53) by lia.
  unfold fexp, emin. rewrite Z.max_l, Z.min_l by lia.
  replace (53 + ex - (53 + ey) - 53) with (ex - ey - 53) by lia.
  replace (ex - ey - (ex - ey - 53)) with 53 by lia.
  cbv iota. rewrite Z.shiftl_mul_pow2 by lia.
  pose proof (Z_div_mod (Zpos mx * 2 ^ 53) (Zpos my) eq_refl) as Hdm.
  destruct (Z.div_eucl (Zpos mx * 2 ^ 53) (Zpos my)) as [q r].
  destruct Hdm as [Hq Hr].
  assert (HX : Zpos mx * 2 ^ 53 = q * Zpos my + r) by lia.
  subst s. destruct (Z.ltb_spec (Zpos mx) (Zpos my)) as [Hlt | Hge].
  - rewrite HX. apply round_53; try lia.
    change (2 ^ 53) with (2 * 2 ^ 52) in *.
    revert Hmx Hmy HX Hr Hlt. generalize (2 ^ 52) (Zpos mx) (Zpos my). clear.
    intros T mx my Hmx Hmy HX Hr Hlt. split; nia.
  - replace (ex - ey - 52) with (ex - ey - 53 + 1) by lia.
    replace (rne (Zpos mx * 2 ^ 52) (Zpos my)) with (rne (q * Zpos my + r) (2 * Zpos my)).
    + apply round_54; try lia.
      change (2 ^ 54) with (2 * (2 * 2 ^ 52)). change (2 ^ 53) with (2 * 2 ^ 52) in *.
      revert Hmx Hmy HX Hr Hge. generalize (2 ^ 52) (Zpos mx) (Zpos my). clear.
      intros T mx my Hmx Hmy HX Hr Hge. split; nia.
    + rewrite <- HX. change (2 ^ 53) with (2 * 2 ^ 52).
      replace (Zpos mx * (2 * 2 ^ 52)) with (2 * (Zpos mx * 2 ^ 52)) by ring.
      apply rne_scale; lia.
Qed.

(** [float64(a)] is exact for a positive [int] below [2^53]: the mantissa is
    [a] shifted left to 53 bits. *)
Lemma of_int_exact (a : Z) :
  1 <= a < 2 ^ 53 ->
  exists (m : positive) (n : Z),
    Float64.of_int a = S754_finite false m (- n) /\
    0 <= n <= 52 /\ Zpos m = a * 2 ^ n /\ 2 ^ 52 <= Zpos m < 2 ^ 53.
Proof.
  intros Ha. destruct a as [| p |]; try lia.
  unfold Float64.of_int, Float64.prec, Float64.emax.
  cbn [binary_normalize]. unfold binary_round.
  pose proof (digits2_pos_bounds p) as Hd.
  set (d := Zpos (digits2_pos p)) in *.
  assert (Hd1 : 1 <= d) by (unfold d; lia).
  assert (Hd53 : d <= 53).
  { destruct (Z.le_gt_cases d 53) as [H | H]; [exact H |].
    assert (2 ^ 53 <= 2 ^ (d - 1)) by (apply Z.pow_le_mono_r; lia). lia. }
  unfold fexp, emin. rewrite Z.max_l by lia.
  unfold shl_align. replace (d + 0 - 53 - 0) with (d - 53) by lia.
  assert (Hfinish : forall (m : positive) (e : Z),
             2 ^ 52 <= Zpos m < 2 ^ 53 -> -52 <= e <= 0 ->
             binary_round_aux 53 1024 false (Zpos m) e loc_Exact = S754_finite false m e).
  { intros m e Hm He. unfold binary_round_aux.
    rewrite shr_fexp_53 by lia. cbn [shr_record_of_loc shr_m loc_of_shr_record round_nearest_even].
    rewrite round_finish by lia. unfold renorm.
    destruct (Z.eqb_spec (Zpos m) (2 ^ 53)); [lia | reflexivity]. }
  destruct (d - 53) as [| k | k] eqn:Hk; try lia.
  - assert (Hd' : 2 ^ 52 <= Zpos p < 2 ^ 53).
    { replace 52 with (d - 1) by lia. replace 53 with d by lia. exact Hd. }
    exists p, 0. rewrite Hfinish by lia.
    repeat split; lia.
  - assert (Hkd : Zpos k = 53 - d) by lia.
    assert (Hpk : 2 ^ 52 <= Zpos p * 2 ^ Zpos k < 2 ^ 53).
    { assert (H52 : 2 ^ 52 = 2 ^ (d - 1) * 2 ^ Zpos k)
        by (rewrite <- Z.pow_add_r by lia; f_equal; lia).
      assert (H53 : 2 ^ 53 = 2 ^ d * 2 ^ Zpos k)
        by (rewrite <- Z.pow_add_r by lia; f_equal; lia).
      assert (0 < 2 ^ Zpos k) by (apply Z.pow_pos_nonneg; lia).
      rewrite H52, H53. nia. }
    exists (Pos.iter xO p k), (Zpos k).
    rewrite Hfinish by (rewrite ?iter_xO_pow; lia).
    rewrite iter_xO_pow.
    split; [f_equal; lia |]. repeat split; lia.
Qed.

(** The ratio of two positive [int]s below [2^53]: their exact quotient,
    scaled by the power of two [t] that brings it to 53 bits, rounded to
    nearest, ties to even. *)
Lemma ratio_rne (a b : Z) :
  1 <= a < 2 ^ 53 -> 1 <= b < 2 ^ 53 ->
  exists t,
    0 <= t /\
    2 ^ 52 * b <= a * 2 ^ t < 2 ^ 53 * b /\
    ratio a b = renorm (rne (a * 2 ^ t) b) (- t).
Proof.
  intros Ha Hb. unfold ratio, Float64.div, Float64.prec, Float64.emax.
  destruct (of_int_exact a Ha) as (mx & na & -> & Hna & Hmx & Hmxb).
  destruct (of_int_exact b Hb) as (my & nb & -> & Hnb & Hmy & Hmyb).
  rewrite div_exact by lia. cbv zeta.
  set (s := if Zpos mx <? Zpos my then 53 else 52).
  assert (Hs : (s = 53 /\ Zpos mx < Zpos my) \/ (s = 52 /\ Zpos my <= Zpos mx)).
  { unfold s. destruct (Z.ltb_spec (Zpos mx) (Zpos my)); [left | right]; split; auto. }
  exists (na + s - nb).
  assert (Ht : 0 <= na + s - nb) by lia.
  assert (Hpnb : 0 < 2 ^ nb) by (apply Z.pow_pos_nonneg; lia).
  assert (Hscale : Zpos mx * 2 ^ s = 2 ^ nb * (a * 2 ^ (na + s - nb))).
  { rewrite Hmx. replace (2 ^ nb * (a * 2 ^ (na + s - nb)))
      with (a * (2 ^ nb * 2 ^ (na + s - nb))) by ring.
    rewrite <- Z.mul_assoc, <- !Z.pow_add_r by lia. do 2 f_equal. lia. }
  split; [exact Ht | split].
  - assert (H2s : 2 ^ s = 2 ^ 53 \/ 2 ^ s = 2 ^ 52) by (destruct Hs as [[-> _] | [-> _]]; auto).
    assert (HA : 2 ^ 52 * Zpos my <= Zpos mx * 2 ^ s < 2 ^ 53 * Zpos my).
    { change (2 ^ 53) with (2 * 2 ^ 52) in *.
      destruct Hs as [[-> Hlt] | [-> Hge]].
      - change (2 ^ 53) with (2 * 2 ^ 52).
        revert Hmxb Hmyb Hlt. generalize (2 ^ 52) (Zpos mx) (Zpos my). clear. intros. nia.
      - revert Hmxb Hmyb Hge. generalize (2 ^ 52) (Zpos mx) (Zpos my). clear. intros. nia. }
    rewrite Hscale, Hmy in HA. clear - HA Hpnb.
    revert HA Hpnb. generalize (2 ^ 52) (2 ^ 53) (2 ^ nb) (a * 2 ^ (na + s - nb)).
    intros T T2 P X HA HP. split; nia.
  - rewrite Hscale, Hmy. rewrite (Z.mul_comm b (2 ^ nb)).
    rewrite rne_scale by lia. f_equal. lia.
Qed.

(** The ratio depends on the quotient of the two [int]s alone: multiplying
    both by one factor leaves it as it is. *)
Lemma ratio_scale (k a b : Z) :
  1 <= k -> 1 <= a -> 1 <= b -> k * a < 2 ^ 53 -> k * b < 2 ^ 53 ->
  ratio (k * a) (k * b) = ratio a b.
Proof.
  intros Hk Ha Hb Hka Hkb.
  destruct (ratio_rne (k * a) (k * b)) as (t & Ht & Hrange & ->); try nia.
  destruct (ratio_rne a b) as (t' & Ht' & Hrange' & ->); try nia.
  assert (Heq : t = t').
  { destruct (Z.lt_trichotomy t t') as [Hlt | [Heq | Hgt]]; [exfalso | exact Heq | exfalso].
    - assert (H2 : 2 ^ t' = 2 ^ (t' - t - 1) * 2 * 2 ^ t).
      { replace t' with ((t' - t - 1) + 1 + t) at 1 by lia.
        rewrite !Z.pow_add_r by lia. reflexivity. }
      assert (0 < 2 ^ (t' - t - 1)) by (apply Z.pow_pos_nonneg; lia).
      rewrite H2 in Hrange'. change (2 ^ 53) with (2 * 2 ^ 52) in *.
      assert (HP : 0 < 2 ^ t) by (apply Z.pow_pos_nonneg; lia).
      revert Hrange Hrange' H Hk Ha Hb HP.
      generalize (2 ^ 52) (2 ^ t) (2 ^ (t' - t - 1)). clear.
      intros T P D [Hlo _] [_ Hhi] HD Hk Ha Hb HP.
      assert (H1 : T * b <= a * P).
      { apply (Z.mul_le_mono_pos_l _ _ k); [lia |]. lia. }
      assert (H2 : a * P * 1 <= a * P * D) by (apply Z.mul_le_mono_nonneg_l; nia).
      nia.
    - assert (H2 : 2 ^ t = 2 ^ (t - t' - 1) * 2 * 2 ^ t').
      { replace t with ((t - t' - 1) + 1 + t') at 1 by lia.
        rewrite !Z.pow_add_r by lia. reflexivity. }
      assert (0 < 2 ^ (t - t' - 1)) by (apply Z.pow_pos_nonneg; lia).
      rewrite H2 in Hrange. change (2 ^ 53) with (2 * 2 ^ 52) in *.
      assert (HP : 0 < 2 ^ t') by (apply Z.pow_pos_nonneg; lia).
      revert Hrange Hrange' H Hk Ha Hb HP.
      generalize (2 ^ 52) (2 ^ t') (2 ^ (t - t' - 1)). clear.
      intros T P D [_ Hhi] [Hlo _] HD Hk Ha Hb HP.
      assert (H1 : a * (D * 2 * P) < 2 * T * b).
      { apply (Z.mul_lt_mono_pos_l k); [lia |]. lia. }
      assert (H2 : a * P * 1 <= a * P * D) by (apply Z.mul_le_mono_nonneg_l; nia).
      nia. }
  subst t'.
  replace (k * a * 2 ^ t) with (k * (a * 2 ^ t)) by ring.
  rewrite rne_scale by lia. reflexivity.
Qed.

(** ** The bands on the exact quotient *)

Lemma ratio_of_fraction (n d w h : Z) :
  1 <= n -> 1 <= d -> Z.gcd d n = 1 ->
  1 <= w < 2 ^ 53 -> 1 <= h < 2 ^ 53 ->
  n * h = d * w -> ratio w h = ratio n d.
Proof.
  intros Hn Hd Hprime Hw Hh Heq.
  assert (Hdiv : (d | h)).
  { apply (Z.gauss d n h); [| exact Hprime]. exists w. lia. }
  destruct Hdiv as [k Hk].
  assert (Hk1 : 1 <= k) by nia.
  assert (Hwk : w = k * n) by nia.
  rewrite Hwk, Hk. apply ratio_scale; nia.
Qed.

(** Below [2^32] the comparison of the ratio with a constant of the bands
    is the comparison of the exact quotient with the decimal. *)
Lemma lt_ratio_decimal (mc : positive) (ec n d w h : Z) :
  2 ^ 52 <= Zpos mc < 2 ^ 53 -> -116 <= ec ->
  1 <= n -> 1 <= d -> Z.gcd d n = 1 ->
  ratio n d = S754_finite false mc ec ->
  (d * (Zpos mc * 2 ^ (ec + 116)) * ((2 ^ 52 + 1) * (2 ^ 52 + 1))
   - n * (2 ^ 52 * 2 ^ 116 * (2 ^ 52 - 1))) * 2 ^ 32 <= 2 ^ 52 * 2 ^ 116 * (2 ^ 52 - 1) ->
  (n * (2 ^ 52 * 2 ^ 116 * (2 ^ 52 + 1))
   - d * (Zpos mc * 2 ^ (ec + 116)) * ((2 ^ 52 - 1) * (2 ^ 52 - 1))) * 2 ^ 32
  <= 2 ^ 52 * 2 ^ 116 * (2 ^ 52 + 1) ->
  1 <= w < 2 ^ 32 -> 1 <= h < 2 ^ 32 ->
  Float64.lt (S754_finite false mc ec) (ratio w h) = (n * h <? d * w) /\
  Float64.lt (ratio w h) (S754_finite false mc ec) = (d * w <? n * h).
Proof.
  intros Hmc Hec Hn Hd Hprime Hc K1 K2 Hw Hh.
  assert (Hw63 : 1 <= w < 2 ^ 63) by lia.
  assert (Hh63 : 1 <= h < 2 ^ 63) by lia.
  destruct (lt_ratio mc ec w h Hmc Hec Hw63 Hh63) as [Habove Hbelow].
  cbn [Float64.scaled] in Habove, Hbelow.
  assert (Hfrac : n * h = d * w -> ratio w h = S754_finite false mc ec).
  { intros Heq. rewrite <- Hc. apply ratio_of_fraction; (assumption || lia). }
  assert (HB : 0 < 2 ^ 52 * 2 ^ 116 * (2 ^ 52 - 1)) by reflexivity.
  assert (HB' : 0 < 2 ^ 52 * 2 ^ 116 * (2 ^ 52 + 1)) by reflexivity.
  assert (HH : 0 < 2 ^ 32) by reflexivity.
  replace (w * 2 ^ 52 * 2 ^ 116 * (2 ^ 52 - 1)) with (w * (2 ^ 52 * 2 ^ 116 * (2 ^ 52 - 1)))
    in Habove by ring.
  replace (w * 2 ^ 52 * 2 ^ 116 * (2 ^ 52 + 1)) with (w * (2 ^ 52 * 2 ^ 116 * (2 ^ 52 + 1)))
    in Hbelow by ring.
  revert Habove Hbelow K1 K2 HB HB' HH Hw Hh.
  generalize (Zpos mc * 2 ^ (ec + 116)) ((2 ^ 52 + 1) * (2 ^ 52 + 1)) ((2 ^ 52 - 1) * (2 ^ 52 - 1))
    (2 ^ 52 * 2 ^ 116 * (2 ^ 52 - 1)) (2 ^ 52 * 2 ^ 116 * (2 ^ 52 + 1)) (2 ^ 32).
  intros Cc A A' B B' H Habove Hbelow K1 K2 HB HB' HH Hw Hh.
  destruct (Z.lt_trichotomy (n * h) (d * w)) as [Hlt | [Heq | Hgt]].
  - replace (n * h <? d * w) with true by (symmetry; apply Z.ltb_lt; lia).
    replace (d * w <? n * h) with false by (symmetry; apply Z.ltb_ge; lia).
    apply Habove.
    assert (Hcoef : (d * Cc * A - n * B) * h <= B).
    { destruct (Z.le_gt_cases (d * Cc * A - n * B) 0); nia. }
    apply (Z.mul_le_mono_pos_l _ _ d); [lia |]. nia.
  - replace (n * h <? d * w) with false by (symmetry; apply Z.ltb_ge; lia).
    replace (d * w <? n * h) with false by (symmetry; apply Z.ltb_ge; lia).
    rewrite (Hfrac Heq).
    unfold Float64.lt, SFltb, SFcompare. rewrite Z.compare_refl.
    rewrite Pos.compare_cont_refl. split; reflexivity.
  - replace (n * h <? d * w) with false by (symmetry; apply Z.ltb_ge; lia).
    replace (d * w <? n * h) with true by (symmetry; apply Z.ltb_lt; lia).
    apply Hbelow.
    assert (Hcoef : (n * B' - d * Cc * A') * h < B').
    { destruct (Z.le_gt_cases (n * B' - d * Cc * A') 0); nia. }
    apply (Z.mul_lt_mono_pos_l d); [lia |]. nia.
Qed.

(** Settle the two comparisons of the ratio with the constant [n / d]. *)
Ltac ratio_decimal mc ec n d :=
  match goal with
  | Hw : 1 <= ?w < 2 ^ 32, Hh : 1 <= ?h < 2 ^ 32 |- _ =>
      let H := fresh "H" in
      assert (H : Float64.lt (S754_finite false mc ec) (ratio w h) = (n * h <? d * w) /\
                  Float64.lt (ratio w h) (S754_finite false mc ec) = (d * w <? n * h));
      [ apply lt_ratio_decimal;
        [ lia | lia | lia | lia
        | reflexivity
        | vm_compute; reflexivity
        | vm_compute; discriminate
        | vm_compute; discriminate
        | exact Hw | exact Hh ]
      | let H1 := fresh "H" in
        let H2 := fresh "H" in
        destruct H as [H1 H2]; rewrite ?H1, ?H2; clear H1 H2 ]
  end.

Lemma band_is_exact (w h : Z) :
  1 <= w < 2 ^ 32 -> 1 <= h < 2 ^ 32 ->
  band (ratio w h) = band_exact w h.
Proof.
  intros Hw Hh.
  unfold band, band_exact, Float64.c1_6, Float64.c1_85, Float64.c1_28, Float64.c1_36,
    Float64.c0_53, Float64.c0_62, Float64.c0_73, Float64.c0_82.
  ratio_decimal 7205759403792794%positive (-52) 8 5.
  ratio_decimal 8331659310635418%positive (-52) 37 20.
  ratio_decimal 5764607523034235%positive (-52) 32 25.
  ratio_decimal 6124895493223875%positive (-52) 34 25.
  ratio_decimal 4773815605012726%positive (-53) 53 100.
  ratio_decimal 5584463537939415%positive (-53) 31 50.
  ratio_decimal 6575255455960924%positive (-53) 73 100.
  ratio_decimal 7385903388887613%positive (-53) 41 50.
  reflexivity.
Qed.

Lemma oriented_pair (s : Stream) : oriented s = (fst (oriented s), snd (oriented s)).
Proof. destruct (oriented s); reflexivity. Qed.

Lemma oriented_below (s : Stream) (bound : Z) :
  1 <= Width s < bound -> 1 <= Height s < bound ->
  1 <= fst (oriented s) < bound /\ 1 <= snd (oriented s) < bound.
Proof.
  intros Hw Hh. unfold oriented.
  destruct (String.eqb (Rotate s) "90" || String.eqb (Rotate s) "270"); cbn; split; assumption.
Qed.

(** X12: for a stream whose width and height are below [2^32], rounding in
    [float64(w) / float64(h)] never moves the frame into or out of a band:
    the label is the one of the exact quotient of the oriented dimensions
    against the decimal limits 1.6, 1.85, 1.28, 1.36, 0.53, 0.62, 0.73 and
    0.82, every limit excluded. *)
Theorem stream_label_is_exact (s : Stream) :
  1 <= Width s < 2 ^ 32 -> 1 <= Height s < 2 ^ 32 ->
  stream_label s = band_exact (fst (oriented s)) (snd (oriented s)).
Proof.
  intros Hw Hh. unfold stream_label. rewrite (oriented_pair s).
  destruct (oriented_below s (2 ^ 32) Hw Hh) as [Hw' Hh'].
  cbn [fst snd]. apply band_is_exact; assumption.
Qed.

Lemma stream_label_is_exact_witness :
  stream_label (Sample.video_stream 1080 1920 "90") = Some "16:9".
Proof.
  apply (stream_label_is_exact (Sample.video_stream 1080 1920 "90")); cbn; lia.
Defined.

(** X13: the label depends only on the shape of the frame. Multiplying the
    width and the height of a stream by the same factor leaves the label of
    the probe output unchanged, as long as the scaled dimensions stay below
    [2^53], where the conversion to float64 is exact. *)
Theorem classifyStreams_scaled_frame (k w h : Z) (codec rotate : string) (rest : list Stream) :
  1 <= k -> 1 <= w -> 1 <= h -> k * w < 2 ^ 53 -> k * h < 2 ^ 53 ->
  classifyStreams
    ({| CodecType := codec; Width := k * w; Height := k * h; Rotate := rotate |} :: rest)
  = classifyStreams
      ({| CodecType := codec; Width := w; Height := h; Rotate := rotate |} :: rest).
Proof.
  intros Hk Hw Hh Hkw Hkh.
  cbn [classifyStreams]. unfold skipped, stream_label, oriented. cbn [CodecType Width Height Rotate].
  replace (k * w <=? 0) with false by (symmetry; apply Z.leb_gt; nia).
  replace (k * h <=? 0) with false by (symmetry; apply Z.leb_gt; nia).
  replace (w <=? 0) with false by (symmetry; apply Z.leb_gt; lia).
  replace (h <=? 0) with false by (symmetry; apply Z.leb_gt; lia).
  destruct (String.eqb rotate "90" || String.eqb rotate "270");
    rewrite ratio_scale by assumption; reflexivity.
Qed.

Lemma classifyStreams_scaled_frame_witness :
  classifyStreams [Sample.video_stream (3 * 1280) (3 * 720) EmptyString]
  = classifyStreams [Sample.video_stream 1280 720 EmptyString].
Proof.
  apply (classifyStreams_scaled_frame 3 1280 720 "video" EmptyString []); lia.
Defined.

(** Replace each integer comparison of the goal that the context settles. *)
Ltac settle_ltb :=
  repeat match goal with
         | |- context [?a <? ?b] =>
             first [ replace (a <? b) with true by (symmetry; apply Z.ltb_lt; lia)
                   | replace (a <? b) with false by (symmetry; apply Z.ltb_ge; lia) ]
         end.

Lemma band_exact_4_3 (w h : Z) :
  band_exact w h = Some "4:3" -> 32 * h < 25 * w /\ 25 * w < 34 * h.
Proof.
  unfold band_exact.
  destruct (Z.ltb_spec (32 * h) (25 * w)), (Z.ltb_spec (25 * w) (34 * h));
    [intros _; split; assumption | | |]; cbn [andb];
    repeat match goal with
           | |- context [if ?c then _ else _] => destruct c
           end; intros Heq; discriminate Heq.
Qed.

Lemma band_exact_16_9 (w h : Z) :
  band_exact w h = Some "16:9" -> 8 * h < 5 * w /\ 20 * w < 37 * h.
Proof.
  unfold band_exact.
  destruct (Z.ltb_spec (8 * h) (5 * w)), (Z.ltb_spec (20 * w) (37 * h));
    [intros _; split; assumption | | |]; cbn [andb];
    repeat match goal with
           | |- context [if ?c then _ else _] => destruct c
           end; intros Heq; discriminate Heq.
Qed.

Lemma oriented_turned (codec rotate : string) (w h : Z) :
  rotate = "90" \/ rotate = "270" ->
  oriented {| CodecType := codec; Width := w; Height := h; Rotate := rotate |} = (h, w).
Proof. intros [-> | ->]; reflexivity. Qed.

(** X14: a quarter turn takes every 4:3 frame to 3:4. If a stream without
    rotation is labelled "4:3", the same stream tagged "90" or "270" is
    labelled "3:4" (dimensions below [2^32]). *)
Theorem quarter_turn_of_4_3 (codec rotate : string) (w h : Z) :
  1 <= w < 2 ^ 32 -> 1 <= h < 2 ^ 32 ->
  rotate = "90" \/ rotate = "270" ->
  stream_label {| CodecType := codec; Width := w; Height := h; Rotate := EmptyString |}
  = Some "4:3" ->
  stream_label {| CodecType := codec; Width := w; Height := h; Rotate := rotate |}
  = Some "3:4".
Proof.
  intros Hw Hh Hr.
  unfold stream_label. rewrite (oriented_turned codec rotate w h Hr).
  cbn [oriented Rotate Width Height String.eqb orb].
  rewrite !band_is_exact by assumption.
  intros Hl. apply band_exact_4_3 in Hl. destruct Hl as [Hlo Hhi].
  unfold band_exact. settle_ltb. reflexivity.
Qed.

Lemma quarter_turn_of_4_3_witness :
  stream_label (Sample.video_stream 640 480 "270") = Some "3:4".
Proof.
  apply (quarter_turn_of_4_3 "video" "270" 640 480); [lia | lia | right; reflexivity |].
  vm_compute. reflexivity.
Defined.

(** X15: the portrait band of 9:16 is not the mirror image of the landscape
    band of 16:9. When a stream without rotation is labelled "16:9", the
    same stream tagged "90" or "270" is labelled "9:16" only if
    [h / w < 0.62]; a 16:9 frame with [w / h] at most [50 / 31] falls in no
    band once turned (dimensions below [2^32]). *)
Theorem quarter_turn_of_16_9 (codec rotate : string) (w h : Z) :
  1 <= w < 2 ^ 32 -> 1 <= h < 2 ^ 32 ->
  rotate = "90" \/ rotate = "270" ->
  stream_label {| CodecType := codec; Width := w; Height := h; Rotate := EmptyString |}
  = Some "16:9" ->
  stream_label {| CodecType := codec; Width := w; Height := h; Rotate := rotate |}
  = if 50 * h <? 31 * w then Some "9:16" else None.
Proof.
  intros Hw Hh Hr.
  unfold stream_label. rewrite (oriented_turned codec rotate w h Hr).
  cbn [oriented Rotate Width Height String.eqb orb].
  rewrite !band_is_exact by assumption.
  intros Hl. apply band_exact_16_9 in Hl. destruct Hl as [Hlo Hhi].
  unfold band_exact.
  destruct (Z.ltb_spec (50 * h) (31 * w)); settle_ltb; reflexivity.
Qed.

Lemma quarter_turn_of_16_9_witness :
  stream_label (Sample.video_stream 1610 1000 "90") = None.
Proof.
  apply (quarter_turn_of_16_9 "video" "90" 1610 1000); [lia | lia | left; reflexivity |].
  vm_compute. reflexivity.
Defined.

(** X16: the limits of the bands are excluded, so a frame of exactly 8:5
    (16:10, such as 1280x800 or 1920x1200) is in no band: a probe output
    whose only stream is such a video stream is labelled "other", whatever
    the rotation. *)
Theorem sixteen_by_ten_is_other (k : Z) (rotate : string) :
  1 <= k -> 8 * k < 2 ^ 32 ->
  classifyStreams
    [{| CodecType := "video"; Width := 8 * k; Height := 5 * k; Rotate := rotate |}]
  = "other".
Proof.
  intros Hk Hb.
  cbn [classifyStreams]. unfold skipped.
  cbn [CodecType Width Height String.eqb Ascii.eqb Bool.eqb negb orb].
  replace (8 * k <=? 0) with false by (symmetry; apply Z.leb_gt; lia).
  replace (5 * k <=? 0) with false by (symmetry; apply Z.leb_gt; lia).
  unfold stream_label, oriented. cbn [Rotate Width Height].
  destruct (String.eqb rotate "90" || String.eqb rotate "270");
    rewrite band_is_exact by lia; unfold band_exact; settle_ltb; reflexivity.
Qed.

Lemma sixteen_by_ten_is_other_witness :
  classifyStreams [Sample.video_stream (8 * 240) (5 * 240) EmptyString] = "other".
Proof.
  apply (sixteen_by_ten_is_other 240 EmptyString); lia.
Defined.

(** ** The temporary file of the earlier handler *)

(** X17: the earlier handler cleans up as the classifying one does: whatever
    way it is left once the temporary file exists, its last calls are the
    close and the remove of that file, then the close of the uploaded part;
    the file is absent afterwards and the temporary directory holds what it
    held before the request. *)
Theorem plain_temp_file_removed (cfg : apiConfig) (env : Env) (r : Request) (w : World) :
  let s := Plain.serve cfg env r w in
  tmp (world s) = tmp w /\
  forall name,
    In (ECreateTemp name) (trace s) ->
    tmp w !! name = None /\
    tmp (world s) !! name = None /\
    exists before, trace s = (before ++ [ECloseTemp name; ERemove name; ECloseUpload])%list.
Proof.
  run_plain.
  all: split; [try reflexivity; apply tmp_restored; assumption |].
  all: intros name Hin; simpl in Hin.
  all: repeat (destruct Hin as [Hin | Hin]; [try discriminate |]); try contradiction.
  all: injection Hin as <-.
  all: split; [assumption |].
  all: split; [rewrite tmp_restored by assumption; assumption | split_suffix].
Qed.

Lemma plain_temp_file_removed_witness :
  let s := Plain.serve Sample.cfg (Sample.good_env [])
             (Sample.request "multipart/form-data" "video/mp4") Sample.world in
  tmp Sample.world !! Sample.tempName = None /\
  tmp (world s) !! Sample.tempName = None /\
  exists before,
    trace s = (before ++ [ECloseTemp Sample.tempName; ERemove Sample.tempName; ECloseUpload])%list.
Proof.
  apply (proj2 (plain_temp_file_removed Sample.cfg (Sample.good_env [])
                  (Sample.request "multipart/form-data" "video/mp4") Sample.world)).
  vm_compute. tauto.
Defined.
